(** * Sorna manager: drivers, event bus and lease-expiry monitor

    A shallow embedding of [sorna/driver.py] and [sorna/gateway/events.py].

    Python objects are modelled by records, the dictionaries of the source
    ([LocalDriver.agents], [EventServer.handlers], [_driver_type_to_class])
    by finite maps, exceptions by an error type, and the points where a
    coroutine waits for the outside world (a child process, the Redis
    subscription) by explicit environment input. *)

From stdpp Require Import gmap strings list pretty.
From Stdlib Require Import Ascii.

(** ** Python exceptions and results *)

Inductive exn :=
| KeyError (k : string)
| NameError (n : string)
| IndexError
| UnicodeDecodeError
| AssertionError
| NotImplementedError
| CancelledError
| OSError (msg : string)
| TypeError
| ProcessLookupError.

#[global] Instance exn_eq_dec : EqDecision exn.
Proof. solve_decision. Defined.

(** The outcome of running a piece of Python code: it returns a value or
    raises. *)
Inductive result (A : Type) :=
| Ok (a : A)
| Raise (e : exn).
Arguments Ok {A} a.
Arguments Raise {A} e.

#[global] Instance result_ret : MRet result := fun A a => Ok a.

#[global] Instance result_bind : MBind result := fun A B k r =>
  match r with
  | Ok a => k a
  | Raise e => Raise e
  end.

Definition is_ok {A} (r : result A) : bool :=
  match r with Ok _ => true | Raise _ => false end.

(** Values passed around as event arguments. *)
Inductive value :=
| VStr (s : string)
| VInt (n : Z)
| VNone.

#[global] Instance value_eq_dec : EqDecision value.
Proof. solve_decision. Defined.

(** [str(v)] *)
Definition str (v : value) : string :=
  match v with
  | VStr s => s
  | VInt n => pretty n
  | VNone => "None"
  end.

(** ** The event bus ([sorna/gateway/events.py], class [EventServer]) *)

Module Events.

(** What [add_handler] and [local_dispatch] look at in a callback object:
    whether it is callable, and whether [asyncio.iscoroutinefunction] holds
    of it.  [cb_name] stands for the identity of the object. *)
Inductive cbkind :=
| CoroutineFunction
| Function
| NotCallable.

#[global] Instance cbkind_eq_dec : EqDecision cbkind.
Proof. solve_decision. Defined.

Record callback := Callback { cb_name : string; cb_kind : cbkind }.

#[global] Instance callback_eq_dec : EqDecision callback.
Proof. solve_decision. Defined.

Definition callable (cb : callback) : bool :=
  match cb_kind cb with NotCallable => false | _ => true end.

(** [asyncio.iscoroutine(h) or asyncio.iscoroutinefunction(h)]: a coroutine
    object is not callable, so for a callback only the second test can
    hold. *)
Definition is_coroutine (cb : callback) : bool :=
  match cb_kind cb with CoroutineFunction => true | _ => false end.

(** One unit of work handed to the event loop.  [EnsureFuture h args kw] is
    [asyncio.ensure_future(h(app, *args, **kw))], [CallSoon h args kw] is
    [loop.call_soon(functools.partial(h, app, *args, **kw))]. *)
Inductive scheduled :=
| EnsureFuture (h : callback) (args : list value) (kwargs : list (string * value))
| CallSoon (h : callback) (args : list value) (kwargs : list (string * value)).

#[global] Instance scheduled_eq_dec : EqDecision scheduled.
Proof. solve_decision. Defined.

Definition sched_handler (s : scheduled) : callback :=
  match s with EnsureFuture h _ _ | CallSoon h _ _ => h end.

Definition sched_args (s : scheduled) : list value :=
  match s with EnsureFuture _ a _ | CallSoon _ a _ => a end.

(** The state of an [EventServer] together with the event loop it schedules
    on: the [defaultdict(list)] of handlers, the work scheduled so far in
    scheduling order, and the lines written with [log.debug]. *)
Record EventServer := mkEventServer {
  handlers : gmap string (list callback);
  loop_queue : list scheduled;
  debug_log : list string
}.

(** [EventServer(app)] *)
Definition init : EventServer :=
  {| handlers := ∅; loop_queue := []; debug_log := [] |}.

(** [d[key]] on a [defaultdict(list)]: a missing key is inserted with an
    empty list, and that list is returned. *)
Definition defaultdict_get (d : gmap string (list callback)) (key : string)
  : list callback * gmap string (list callback) :=
  match d !! key with
  | Some l => (l, d)
  | None => ([], <[key := []]> d)
  end.

(** The handlers an event name resolves to, without touching the table. *)
Definition handlers_of (es : EventServer) (event_name : string) : list callback :=
  default [] (handlers es !! event_name).

Definition add_handler (es : EventServer) (event_name : string) (cb : callback)
  : result EventServer :=
  if callable cb then
    let '(l, d) := defaultdict_get (handlers es) event_name in
    Ok {| handlers := <[event_name := l ++ [cb]]> d;
          loop_queue := loop_queue es;
          debug_log := debug_log es |}
  else Raise AssertionError.

Definition schedule (h : callback) (args : list value)
    (kwargs : list (string * value)) : scheduled :=
  if is_coroutine h then EnsureFuture h args kwargs else CallSoon h args kwargs.

Definition debug_line (event_name : string) (args : list value) : string :=
  "DISPATCH(" +:+ event_name +:+ " "
    +:+ match args with a :: _ => str a | [] => "" end +:+ ")".

Section WithCalls.

(** [call_error h args kwargs] is what the call
    [h(app, *args, **kwargs)] of a coroutine function raises, if it
    raises: [TypeError] when the arguments do not fit its parameters.  The
    call only builds the coroutine object, it does not run the body. *)
Variable call_error :
  callback → list value → list (string * value) → option exn.

(** What the body of the loop raises for one handler, if it raises.  Line
    29 calls a coroutine function on the spot; line 31 only wraps any
    other callable, to be called by the event loop later; what is not
    callable can neither be called nor wrapped. *)
Definition call_outcome (h : callback) (args : list value)
    (kwargs : list (string * value)) : option exn :=
  match cb_kind h with
  | CoroutineFunction => call_error h args kwargs
  | Function => None
  | NotCallable => Some TypeError
  end.

(** The [for handler in self.handlers[event_name]] loop, threading the
    queue of the event loop.  An exception leaves the loop at once: what
    was scheduled stays scheduled, the handlers that follow are not
    reached. *)
Fixpoint dispatch_loop (hs : list callback) (args : list value)
    (kwargs : list (string * value)) (q : list scheduled)
  : list scheduled * result () :=
  match hs with
  | [] => (q, Ok ())
  | h :: hs' =>
      match call_outcome h args kwargs with
      | Some e => (q, Raise e)
      | None => dispatch_loop hs' args kwargs (q ++ [schedule h args kwargs])
      end
  end.

(** [local_dispatch] gives the server as it leaves it, and how it ends. *)
Definition local_dispatch (es : EventServer) (event_name : string)
    (args : list value) (kwargs : list (string * value))
  : EventServer * result () :=
  let line := debug_line event_name args in
  let '(hs, d) := defaultdict_get (handlers es) event_name in
  let '(q, r) := dispatch_loop hs args kwargs (loop_queue es) in
  ({| handlers := d; loop_queue := q; debug_log := debug_log es ++ [line] |},
   r).

(** The remotely callable entry point. *)
Definition dispatch := local_dispatch.

(** Whether every handler under [event_name] lets the loop go on for
    these arguments. *)
Definition accepted (es : EventServer) (event_name : string)
    (args : list value) (kwargs : list (string * value)) : Prop :=
  Forall (λ h, call_outcome h args kwargs = None) (handlers_of es event_name).

End WithCalls.

(** How often a callback was scheduled with the given arguments. *)
Definition times_scheduled (h : callback) (args : list value)
    (q : list scheduled) : nat :=
  length (filter (fun s => sched_handler s = h ∧ sched_args s = args) q).

End Events.

(** ** The lease-expiry monitor ([monitor_redis_events]) *)

Module Monitor.
Import Events.

(** [b.decode('ascii')]: a byte string is modelled by a [string], whose
    characters are bytes; decoding fails on a byte above 127. *)
Fixpoint ascii_only (b : string) : bool :=
  match b with
  | EmptyString => true
  | String c b' => bool_decide (nat_of_ascii c < 128) && ascii_only b'
  end.

Definition decode_ascii (b : string) : result string :=
  if ascii_only b then Ok b else Raise UnicodeDecodeError.

(** [s.split(sep)] ([maxsplit = None]) and [s.split(sep, n)]
    ([maxsplit = Some n]) for a separator of one character. *)
Fixpoint split (sep : ascii) (maxsplit : option nat) (s : string) : list string :=
  match s with
  | EmptyString => [EmptyString]
  | String c s' =>
      if decide (c = sep) then
        match maxsplit with
        | Some 0 => [s]
        | Some (S n) => EmptyString :: split sep (Some n) s'
        | None => EmptyString :: split sep None s'
        end
      else
        match split sep maxsplit s' with
        | w :: ws => String c w :: ws
        | [] => [String c EmptyString]
        end
  end.

(** [l[i]] *)
Definition index {A} (l : list A) (i : nat) : result A :=
  match l !! i with
  | Some x => Ok x
  | None => Raise IndexError
  end.

(** [s.startswith(p)] *)
Definition startswith (p s : string) : bool := String.prefix p s.

(** What one [await channels[0].get(encoding='utf8')] delivers: a message
    (the channel name as bytes, the expired key as text), [None] once the
    channel is closed, or an exception raised inside the await
    ([CancelledError] when the task is cancelled). *)
Inductive received :=
| Got (channel : string) (key : string)
| GotNone
| Threw (e : exn).

(** The calls the monitor makes on the Redis client and on the event
    server, in the order it makes them. *)
Inductive action :=
| CreateRedis
| ConfigSet (param val : string)
| Psubscribe (pattern : string)
| Get
| LocalDispatch (event_name : string) (args : list value)
| Unsubscribe (channel : string)
| Close
| WaitClosed.

#[global] Instance action_eq_dec : EqDecision action.
Proof. solve_decision. Defined.

Record mstate := mkMState {
  trace : list action;
  bus : EventServer
}.

Definition call (a : action) (st : mstate) : mstate :=
  {| trace := trace st ++ [a]; bus := bus st |}.

(** How a block of the coroutine ends: it runs to its end, it raises, or
    the coroutine is still suspended in an await. *)
Inductive completion :=
| Normal
| Exc (e : exn)
| Pending.

#[global] Instance completion_eq_dec : EqDecision completion.
Proof. solve_decision. Defined.

(** Lines 52 to 55: what the body reads off a message before it
    dispatches: the instance whose lease expired, or nothing to report. *)
Definition expired_lease (channel key : string) : result (option string) :=
  decoded ← decode_ascii channel;
  evname ← index (split ":" None decoded) 1;
  if bool_decide (evname = "expired") && startswith "shadow:" key then
    inst_id ← index (split ":" (Some 1) key) 1;
    Ok (Some inst_id)
  else Ok None.

(** What the three calls of the [finally] clause answer: each returns
    ([None]) or raises; an await raises [CancelledError] when the task is
    cancelled while it waits there. *)
Record answers := mkAnswers {
  unsubscribe_raises : option exn;
  close_raises : option exn;
  wait_closed_raises : option exn
}.

Definition all_return : answers := mkAnswers None None None.

Section WithDefs.

(** [defs.SORNA_INSTANCE_DB], the number of the Redis database that holds
    the leases. *)
Variable SORNA_INSTANCE_DB : N.

(** What calling a coroutine function raises, as in [Events]. *)
Variable call_error :
  callback → list value → list (string * value) → option exn.

Definition chprefix : string :=
  "__keyevent@" +:+ pretty SORNA_INSTANCE_DB +:+ "__*".

(** Lines 40 to 46: connect, enable expiry notifications, subscribe. *)
Definition setup (st : mstate) : mstate :=
  call (Psubscribe chprefix)
    (call (ConfigSet "notify-keyspace-events" "Ex") (call CreateRedis st)).

(** Lines 52 to 56: the body of the loop for one message.  An exception
    of [local_dispatch] is the exception of the body; the bus stays as
    [local_dispatch] left it. *)
Definition on_message (channel key : string) (st : mstate)
  : mstate * result () :=
  match expired_lease channel key with
  | Ok (Some inst_id) =>
      let args := [VStr "agent-lost"; VStr inst_id] in
      let r := local_dispatch call_error (bus st) "instance_terminated" args [] in
      ({| trace := trace st ++ [LocalDispatch "instance_terminated" args];
          bus := r.1 |},
       r.2)
  | Ok None => (st, Ok ())
  | Raise e => (st, Raise e)
  end.

(** Lines 48 to 56: [while True], fed with what the successive [get]s
    deliver.  When nothing more is delivered the coroutine stays suspended
    in [get]. *)
Fixpoint while_true (inputs : list received) (st : mstate)
  : mstate * completion :=
  let st := call Get st in
  match inputs with
  | [] => (st, Pending)
  | GotNone :: _ => (st, Normal)
  | Threw e :: _ => (st, Exc e)
  | Got channel key :: rest =>
      match on_message channel key st with
      | (st', Ok _) => while_true rest st'
      | (st', Raise e) => (st', Exc e)
      end
  end.

(** Lines 57 and 58: [except asyncio.CancelledError: pass]. *)
Definition except_cancelled (c : completion) : completion :=
  match c with
  | Exc CancelledError => Normal
  | _ => c
  end.

(** Lines 60 to 62, one call after the other; the first that raises ends
    the block, and the calls after it are not made. *)
Definition cleanup (ans : answers) (st : mstate) : mstate * option exn :=
  let st := call (Unsubscribe chprefix) st in
  match unsubscribe_raises ans with
  | Some e => (st, Some e)
  | None =>
      let st := call Close st in
      match close_raises ans with
      | Some e => (st, Some e)
      | None => (call WaitClosed st, wait_closed_raises ans)
      end
  end.

(** Lines 59 to 62: the [finally] clause runs when control leaves the
    [try] statement, whichever way.  When it runs to its end a pending
    exception goes on; when it raises, its exception takes the place of
    whatever was pending. *)
Definition finally (ans : answers) (r : mstate * completion)
  : mstate * completion :=
  match r with
  | (st, Pending) => (st, Pending)
  | (st, c) =>
      match cleanup ans st with
      | (st', Some e) => (st', Exc e)
      | (st', None) => (st', c)
      end
  end.

Definition monitor_redis_events (ans : answers) (inputs : list received)
    (es : EventServer) : mstate * completion :=
  let st := setup {| trace := []; bus := es |} in
  let '(st', c) := while_true inputs st in
  finally ans (st', except_cancelled c).

(** The events the monitor has put on the bus. *)
Definition dispatched (t : list action) : list (string * list value) :=
  omap (fun a => match a with
                 | LocalDispatch n args => Some (n, args)
                 | _ => None
                 end) t.

(** The calls that the [finally] clause makes for the given answers. *)
Definition cleanup_calls (ans : answers) : list action :=
  match unsubscribe_raises ans, close_raises ans with
  | Some _, _ => [Unsubscribe chprefix]
  | None, Some _ => [Unsubscribe chprefix; Close]
  | None, None => [Unsubscribe chprefix; Close; WaitClosed]
  end.

End WithDefs.

(** The exception of the first call of the [finally] clause that raises. *)
Definition cleanup_error (ans : answers) : option exn :=
  match unsubscribe_raises ans, close_raises ans with
  | Some e, _ => Some e
  | None, Some e => Some e
  | None, None => wait_closed_raises ans
  end.

(** How the coroutine ends after the [finally] clause, when [c] was
    pending at its start. *)
Definition after_cleanup (ans : answers) (c : completion) : completion :=
  match cleanup_error ans with
  | Some e => Exc e
  | None => c
  end.

(** The input on which the loop is left whatever the bus does: a closed
    channel, an exception in the await, or a message on which the body
    raises before it dispatches. *)
Definition leaves_loop (r : received) : bool :=
  match r with
  | GotNone | Threw _ => true
  | Got channel key => negb (is_ok (expired_lease channel key))
  end.

(** How the [try] block ends on such an input. *)
Definition exit_of (r : received) : completion :=
  match r with
  | GotNone => Normal
  | Threw e => Exc e
  | Got channel key =>
      match expired_lease channel key with
      | Raise e => Exc e
      | Ok _ => Pending
      end
  end.

(** The calls made inside the loop. *)
Definition in_loop (a : action) : bool :=
  match a with
  | Get | LocalDispatch _ _ => true
  | _ => false
  end.

(** The patterns a connection is subscribed to after the calls of a
    trace, as Redis keeps them: [psubscribe] adds a pattern, [unsubscribe]
    names channels and leaves the patterns alone, and the end of the
    connection ends every subscription. *)
Definition patterns_held (t : list action) : list string :=
  foldl (λ held a,
           match a with
           | Psubscribe p => held ++ [p]
           | Close => []
           | _ => held
           end) [] t.

(** [sep not in s] *)
Fixpoint free_of (sep : ascii) (s : string) : bool :=
  match s with
  | EmptyString => true
  | String c s' => bool_decide (c ≠ sep) && free_of sep s'
  end.

(** A channel prefix within ASCII and without a colon, as
    [__keyevent@<db>__] is. *)
Definition plain (s : string) : bool := ascii_only s && free_of ":" s.

End Monitor.

(** ** The drivers ([sorna/driver.py]) *)

(** Modelled from the spec: the module [sorna.structs] is not part of the
    sources at hand.  An Instance has an identifier, a network address and
    backend-specific metadata (the control port of its container daemon). *)
Record Instance := mkInstance {
  inst_id : string;
  ip : string;
  docker_port : Z
}.

(** Modelled from the spec: [sorna.structs.Kernel], with an identifier, a
    reference to its instance, the agent socket address and the
    driver-private handle; the last two are unset until the driver assigns
    them. *)
Record Kernel := mkKernel {
  id : string;
  instance : Instance;
  agent_sock : option string;
  priv : option string
}.

(** ['tcp://{0}:{1}'.format(host, port)] *)
Definition tcp_address (host : string) (port : Z) : string :=
  "tcp://" +:+ host +:+ ":" +:+ pretty port.

Module LocalDriver.

(** A child process of the manager, as asyncio has it: running, sent
    SIGTERM, or exited with the event loop having seen the exit. *)
Inductive pstatus :=
| Running
| Terminating
| Exited.

#[global] Instance pstatus_eq_dec : EqDecision pstatus.
Proof. solve_decision. Defined.

Record process := mkProcess {
  cmdargs : list string;
  status : pstatus
}.

(** What lies outside the driver object: how many UUIDs were drawn so far,
    and the child processes by handle. *)
Record world := mkWorld {
  draws : nat;
  procs : gmap nat process;
  next_proc : nat
}.

(** The driver object: [self.agents], from kernel id to process handle. *)
Record t := mkLocalDriver {
  agents : gmap string nat
}.

(** [LocalDriver()] *)
Definition new : t := {| agents := ∅ |}.

Definition draw (w : world) : world :=
  {| draws := S (draws w); procs := procs w; next_proc := next_proc w |}.

Section WithUuid.

(** [uuid4 n] is [str(uuid.uuid4())] at the [n]-th draw of the process. *)
Variable uuid4 : nat → string.

Definition launch_instance (d : t) (w : world)
  : result (string * string) * t * world :=
  let inst_id := uuid4 (draws w) in
  (Ok (inst_id, "127.0.0.1"), d, draw w).

Definition destroy_instance (d : t) (inst_id : string) (w : world)
  : result () * t * world :=
  (Ok (), d, w).

(** [spawn_error] is what [asyncio.create_subprocess_exec] raises, if it
    does. *)
Definition create_kernel (d : t) (instance : Instance) (agent_port : Z)
    (spawn_error : option exn) (w : world) : result Kernel * t * world :=
  let kernel_id := "local/" +:+ uuid4 (draws w) in
  let w := draw w in
  let kernel := {| id := kernel_id; instance := instance;
                   agent_sock := None; priv := None |} in
  let cmdargs := ["/usr/bin/env"; "python3"; "-m"; "sorna.agent";
                  "--kernel-id"; kernel_id;
                  "--agent-port"; pretty agent_port] in
  match spawn_error with
  | Some e => (Raise e, d, w)
  | None =>
      let proc := next_proc w in
      let w := {| draws := draws w;
                  procs := <[proc := mkProcess cmdargs Running]> (procs w);
                  next_proc := S proc |} in
      let kernel := {| id := kernel_id; instance := instance;
                       agent_sock := Some (tcp_address (ip instance) agent_port);
                       priv := None |} in
      (Ok kernel, {| agents := <[kernel_id := proc]> (agents d) |}, w)
  end.

(** The calls of a caller that never has two driver calls in flight. *)
Inductive call :=
| LaunchInstance
| DestroyInstance (inst_id : string)
| CreateKernel (instance : Instance) (agent_port : Z) (spawn_error : option exn).

(** Runs the calls in order and collects what [launch_instance] returned. *)
Fixpoint run_calls (cs : list call) (d : t) (w : world)
  : list (string * string) * t * world :=
  match cs with
  | [] => ([], d, w)
  | LaunchInstance :: cs' =>
      match launch_instance d w with
      | (Ok r, d', w') =>
          let '(rs, d'', w'') := run_calls cs' d' w' in (r :: rs, d'', w'')
      | (Raise _, d', w') => run_calls cs' d' w'
      end
  | DestroyInstance i :: cs' =>
      let '(_, d', w') := destroy_instance d i w in run_calls cs' d' w'
  | CreateKernel i p e :: cs' =>
      let '(_, d', w') := create_kernel d i p e w in run_calls cs' d' w'
  end.

Definition is_launch (c : call) : bool :=
  match c with LaunchInstance => true | _ => false end.

End WithUuid.

(** *** [destroy_kernel], statement by statement

    [destroy_kernel] gives up control in [yield from proc.wait()], so it is
    modelled by a machine that steps from one statement to the next while
    the processes of the world live on. *)

Inductive pc :=
| AtLookup                 (* line 153: proc = self.agents[kernel.id] *)
| AtTerminate (proc : nat) (* line 154: proc.terminate() *)
| AtWait (proc : nat)      (* line 155: yield from proc.wait() *)
| AtDel                    (* line 156: del self.agents[kernel.id] *)
| Done (r : result ()).

(** What the coroutine has done so far. *)
Inductive event :=
| Signalled (proc : nat)
| ExitConfirmed (proc : nat)
| Removed (kernel_id : string).

#[global] Instance event_eq_dec : EqDecision event.
Proof. solve_decision. Defined.

Record config := mkConfig {
  at_pc : pc;
  driver : t;
  outside : world;
  history : list event
}.

(** [Step]: the coroutine runs its current statement.  [Throws e]: the call
    of the current statement into asyncio raises [e] for a reason of its
    own, a cancellation while it waits for one.  [Exits proc]: the event
    loop sees the process exit, signalled or on its own. *)
Inductive label :=
| Step
| Throws (e : exn)
| Exits (proc : nat).

Definition set_status (proc : nat) (s : pstatus) (w : world) : world :=
  {| draws := draws w;
     procs := alter (fun p => mkProcess (cmdargs p) s) proc (procs w);
     next_proc := next_proc w |}.

Definition status_of (proc : nat) (w : world) : option pstatus :=
  status <$> procs w !! proc.

(** [proc.terminate()] sends SIGTERM to a process that has not exited.
    Once the event loop has seen the process exit, asyncio has let go of
    it, and the call raises [ProcessLookupError]. *)
Definition terminate (proc : nat) (w : world) : result world :=
  match status_of proc w with
  | Some Exited => Raise ProcessLookupError
  | Some Running => Ok (set_status proc Terminating w)
  | _ => Ok w
  end.

Definition step (kernel : Kernel) (l : label) (c : config) : option config :=
  match l, at_pc c with
  | Exits proc, _ =>
      match status_of proc (outside c) with
      | Some _ =>
          Some (mkConfig (at_pc c) (driver c)
                         (set_status proc Exited (outside c)) (history c))
      | None => None
      end
  | Step, AtLookup =>
      match agents (driver c) !! id kernel with
      | Some proc =>
          Some (mkConfig (AtTerminate proc) (driver c) (outside c) (history c))
      | None =>
          Some (mkConfig (Done (Raise (KeyError (id kernel))))
                         (driver c) (outside c) (history c))
      end
  | Step, AtTerminate proc =>
      match terminate proc (outside c) with
      | Ok w =>
          Some (mkConfig (AtWait proc) (driver c) w
                         (history c ++ [Signalled proc]))
      | Raise e =>
          Some (mkConfig (Done (Raise e)) (driver c) (outside c) (history c))
      end
  | Step, AtWait proc =>
      match status_of proc (outside c) with
      | Some Exited =>
          Some (mkConfig AtDel (driver c) (outside c)
                         (history c ++ [ExitConfirmed proc]))
      | _ => None
      end
  | Step, AtDel =>
      match agents (driver c) !! id kernel with
      | Some _ =>
          Some (mkConfig (Done (Ok ()))
                         {| agents := delete (id kernel) (agents (driver c)) |}
                         (outside c) (history c ++ [Removed (id kernel)]))
      | None =>
          Some (mkConfig (Done (Raise (KeyError (id kernel))))
                         (driver c) (outside c) (history c))
      end
  | Throws e, AtTerminate _ | Throws e, AtWait _ =>
      Some (mkConfig (Done (Raise e)) (driver c) (outside c) (history c))
  | _, _ => None
  end.

Fixpoint run (kernel : Kernel) (ls : list label) (c : config) : option config :=
  match ls with
  | [] => Some c
  | l :: ls' =>
      match step kernel l c with
      | Some c' => run kernel ls' c'
      | None => None
      end
  end.

(** The call [destroy_kernel(kernel)] before its first statement. *)
Definition destroy_kernel (d : t) (w : world) : config :=
  mkConfig AtLookup d w [].

(** What a complete teardown of [kernel], run by process [proc], does. *)
Definition teardown (kernel : Kernel) (proc : nat) : list event :=
  [Signalled proc; ExitConfirmed proc; Removed (id kernel)].

(** How often the registry entry of [kernel] was removed. *)
Definition removals (kernel : Kernel) (c : config) : nat :=
  length (filter (λ e, e = Removed (id kernel)) (history c)).

(** What holds at each statement of [destroy_kernel(kernel)] when the
    registry held [proc] for [kernel] at the call. *)
Definition teardown_inv (kernel : Kernel) (proc : nat) (c : config) : Prop :=
  match at_pc c with
  | AtLookup =>
      history c = [] ∧ agents (driver c) !! id kernel = Some proc
  | AtTerminate p =>
      p = proc ∧ history c = []
      ∧ agents (driver c) !! id kernel = Some proc
  | AtWait p =>
      p = proc ∧ history c = [Signalled proc]
      ∧ agents (driver c) !! id kernel = Some proc
      ∧ status_of proc (outside c) ≠ Some Running
  | AtDel =>
      history c = [Signalled proc; ExitConfirmed proc]
      ∧ agents (driver c) !! id kernel = Some proc
      ∧ status_of proc (outside c) = Some Exited
  | Done (Ok _) =>
      history c = teardown kernel proc
      ∧ agents (driver c) !! id kernel = None
      ∧ status_of proc (outside c) = Some Exited
  | Done (Raise _) =>
      (history c = []
       ∨ (history c = [Signalled proc]
          ∧ status_of proc (outside c) ≠ Some Running))
      ∧ agents (driver c) !! id kernel = Some proc
  end.

(** What holds throughout a call for a registered kernel whose process
    had exited before the call. *)
Definition gone_inv (kernel : Kernel) (proc : nat) (d : t) (c : config)
  : Prop :=
  driver c = d ∧ history c = []
  ∧ status_of proc (outside c) = Some Exited
  ∧ (at_pc c = AtLookup ∨ at_pc c = AtTerminate proc
     ∨ ∃ e, at_pc c = Done (Raise e)).

(** What holds throughout a call for a kernel that is not registered. *)
Definition not_found_inv (kernel : Kernel) (d : t) (c : config) : Prop :=
  driver c = d ∧ history c = []
  ∧ (at_pc c = AtLookup ∨ at_pc c = Done (Raise (KeyError (id kernel)))).

End LocalDriver.

Module AWSDockerDriver.

(** The object has no attribute of its own besides the event loop. *)
Definition t : Type := ().

Definition new : t := ().

(** The names bound in the module [sorna.driver] when its functions run:
    what it imports and what it defines. *)
Definition module_names : list string :=
  ["ABCMeta"; "abstractmethod"; "asyncio"; "aiozmq"; "Enum"; "uuid";
   "Kernel"; "DriverTypes"; "AgentPortRange"; "BaseDriver";
   "AWSDockerDriver"; "LocalDriver"; "_driver_type_to_class";
   "create_driver"].

(** The built-in names the module uses. *)
Definition builtin_names : list string :=
  ["tuple"; "range"; "str"; "dict"; "super"; "NotImplementedError"].

(** Reading a global name. *)
Definition global (name : string) : result () :=
  if bool_decide (name ∈ module_names ++ builtin_names) then Ok ()
  else Raise (NameError name).

Definition launch_instance (d : t) : result (string * string) :=
  _ ← global "sepc";
  Raise NotImplementedError.

Definition destroy_instance (d : t) (inst_id : string) : result () :=
  Raise NotImplementedError.

(** [container_id] is the identifier of the container that the Docker
    daemon of the instance would create. *)
Definition create_kernel (d : t) (instance : Instance) (agent_port : Z)
    (container_id : string) : result Kernel :=
  _ ← global "docker";
  let base_url := tcp_address (ip instance) (docker_port instance) in
  _ ← global "Kernel";
  let kernel_priv := container_id in
  Ok {| id := "docker-" +:+ ip instance +:+ "/" +:+ kernel_priv;
        instance := instance;
        agent_sock := Some (tcp_address (ip instance) agent_port);
        priv := Some kernel_priv |}.

Definition destroy_kernel (d : t) (kernel : Kernel) : result () :=
  Raise NotImplementedError.

End AWSDockerDriver.

(** *** The factory *)

Inductive driver_class :=
| LocalDriverClass
| AWSDockerDriverClass.

Inductive driver :=
| Local (d : LocalDriver.t)
| AWSDocker (d : AWSDockerDriver.t).

Definition _driver_type_to_class : gmap string driver_class :=
  {[ "local" := LocalDriverClass; "aws_docker" := AWSDockerDriverClass ]}.

(** [cls()] *)
Definition construct (cls : driver_class) : driver :=
  match cls with
  | LocalDriverClass => Local LocalDriver.new
  | AWSDockerDriverClass => AWSDocker AWSDockerDriver.new
  end.

Definition create_driver (name : string) : result driver :=
  match _driver_type_to_class !! name with
  | Some cls => Ok (construct cls)
  | None => Raise (KeyError name)
  end.

(** The interface [BaseDriver]: a call through it runs the method of the
    variant at hand.  [spawn_error] and [container_id] are the answers of
    the outside world to the local and to the Docker variant. *)
Module BaseDriver.

Definition create_kernel (uuid4 : nat → string) (drv : driver)
    (instance : Instance) (agent_port : Z) (spawn_error : option exn)
    (container_id : string) (w : LocalDriver.world) : result Kernel :=
  match drv with
  | Local d =>
      (LocalDriver.create_kernel uuid4 d instance agent_port spawn_error w).1.1
  | AWSDocker d =>
      AWSDockerDriver.create_kernel d instance agent_port container_id
  end.

End BaseDriver.

(** ** Using the bus and the monitor

    The callers of [EventServer] register handlers and dispatch events in
    some order; the definitions below run such a sequence on the bus. *)

Module Bus.
Import Events.

Inductive op :=
| Register (event_name : string) (cb : callback)
| Dispatch (event_name : string) (args : list value)
           (kwargs : list (string * value)).

Section WithCalls.

Variable call_error :
  callback → list value → list (string * value) → option exn.

(** One call on the bus, and the bus as the call leaves it, whether it
    returns or raises.  A registration that fails its assertion raises
    before it touches the table, so the bus stays as it was. *)
Definition run_op (o : op) (es : EventServer) : EventServer :=
  match o with
  | Register e cb =>
      match add_handler es e cb with
      | Ok es' => es'
      | Raise _ => es
      end
  | Dispatch e args kwargs => (local_dispatch call_error es e args kwargs).1
  end.

Definition run_ops (ops : list op) (es : EventServer) : EventServer :=
  foldl (λ es o, run_op o es) es ops.

End WithCalls.

(** The callbacks that the registrations among [ops] add under [e]. *)
Definition registered (e : string) (ops : list op) : list callback :=
  omap (λ o, match o with
             | Register e' cb =>
                 if bool_decide (e' = e) && callable cb then Some cb else None
             | Dispatch _ _ _ => None
             end) ops.

(** The event names looked up in the table by [ops]: those dispatched and
    those of the registrations that pass the assertion. *)
Definition names (ops : list op) : list string :=
  omap (λ o, match o with
             | Register e cb => if callable cb then Some e else None
             | Dispatch e _ _ => Some e
             end) ops.

(** A unit of work is scheduled the way [local_dispatch] schedules its
    handler: through [ensure_future] for a coroutine function, through
    [call_soon] for any other callable. *)
Definition well_scheduled (s : scheduled) : bool :=
  match s with
  | EnsureFuture h _ _ => bool_decide (cb_kind h = CoroutineFunction)
  | CallSoon h _ _ => bool_decide (cb_kind h = Function)
  end.

End Bus.

Module MonitorRun.
Import Events Monitor.

(** The event the monitor dispatches for the lease of [inst_id]. *)
Definition lease_event (inst_id : string) : string * list value :=
  ("instance_terminated", [VStr "agent-lost"; VStr inst_id]).

(** [s[n:]] *)
Fixpoint after (n : nat) (s : string) : string :=
  match n, s with
  | 0, _ => s
  | S n', String _ s' => after n' s'
  | S _, EmptyString => EmptyString
  end.

(** The instance a key is the lease of: what follows [shadow:], for a key
    that starts with it. *)
Definition lease_of (key : string) : option string :=
  if startswith "shadow:" key then Some (after 7 key) else None.

(** What the bus does with the lease events of [inst_ids], in order. *)
Definition dispatch_leases
    (call_error : callback → list value → list (string * value) → option exn)
    (inst_ids : list string) (es : EventServer) : EventServer :=
  foldl (λ es inst_id,
           (local_dispatch call_error es "instance_terminated"
              [VStr "agent-lost"; VStr inst_id] []).1)
        es inst_ids.

(** Every handler of [instance_terminated] lets a dispatch of a lease
    event go through, whatever the instance. *)
Definition leases_accepted
    (call_error : callback → list value → list (string * value) → option exn)
    (es : EventServer) : Prop :=
  ∀ inst_id,
    accepted call_error es "instance_terminated"
      [VStr "agent-lost"; VStr inst_id] [].

Section WithDefs.

Variable SORNA_INSTANCE_DB : N.

Variable call_error :
  callback → list value → list (string * value) → option exn.

(** [monitor_redis_events] with the answers of the three awaits of lines
    40 to 45 made explicit: each of [create_redis], [config_set] and
    [psubscribe] returns ([None]) or raises.  These lines stand before the
    [try] statement. *)
Definition monitor_from_setup (create_redis config_set psubscribe : option exn)
    (ans : answers) (inputs : list received) (es : EventServer)
  : mstate * completion :=
  let st := call CreateRedis {| trace := []; bus := es |} in
  match create_redis with
  | Some e => (st, Exc e)
  | None =>
      let st := call (ConfigSet "notify-keyspace-events" "Ex") st in
      match config_set with
      | Some e => (st, Exc e)
      | None =>
          let st := call (Psubscribe (chprefix SORNA_INSTANCE_DB)) st in
          match psubscribe with
          | Some e => (st, Exc e)
          | None =>
              let '(st', c) := while_true call_error inputs st in
              finally SORNA_INSTANCE_DB ans (st', except_cancelled c)
          end
      end
  end.

End WithDefs.

(** The exception of the first of three awaits in a row that raises. *)
Definition first_raised (a b c : option exn) : option exn :=
  match a, b with
  | Some e, _ => Some e
  | None, Some e => Some e
  | None, None => c
  end.

(** The calls that release what the monitor holds. *)
Definition releases (a : action) : bool :=
  match a with
  | Unsubscribe _ | Close | WaitClosed => true
  | _ => false
  end.

End MonitorRun.

(** ** Using the local driver

    Calls on a driver come in any order, and a [destroy_kernel] gives
    way to other calls while it waits. *)

Module LocalRun.
Import LocalDriver.

Section WithUuid.

Variable uuid4 : nat → string.

(** The states that the calls on a new local driver lead to, with the
    steps of any number of [destroy_kernel] calls in between, each at
    whatever statement it is. *)
Inductive reachable : t → world → Prop :=
| reach_new w :
    procs w = ∅ → reachable new w
| reach_launch_instance d w :
    reachable d w →
    reachable (launch_instance uuid4 d w).1.2 (launch_instance uuid4 d w).2
| reach_destroy_instance d w inst_id :
    reachable d w →
    reachable (destroy_instance d inst_id w).1.2 (destroy_instance d inst_id w).2
| reach_create_kernel d w instance agent_port spawn_error :
    reachable d w →
    reachable (create_kernel uuid4 d instance agent_port spawn_error w).1.2
              (create_kernel uuid4 d instance agent_port spawn_error w).2
| reach_step kernel l c c' :
    reachable (driver c) (outside c) →
    step kernel l c = Some c' →
    reachable (driver c') (outside c').

(** What the registry and the world keep: every handle in the registry is
    a process of the world, the world hands out handles below
    [next_proc], no handle is registered twice, and every key is [local/]
    followed by a UUID already drawn. *)
Definition sound (d : t) (w : world) : Prop :=
  (∀ k p, agents d !! k = Some p → is_Some (procs w !! p))
  ∧ (∀ p, is_Some (procs w !! p) → p < next_proc w)
  ∧ (∀ k1 k2 p, agents d !! k1 = Some p → agents d !! k2 = Some p → k1 = k2)
  ∧ (∀ k, is_Some (agents d !! k) →
          ∃ i, i < draws w ∧ k = "local/" +:+ uuid4 i).

End WithUuid.

(** A coroutine that was waiting goes on, with the driver and the world as
    the calls that ran in between have left them in [others]. *)
Definition resume (c others : config) : config :=
  mkConfig (at_pc c) (driver others) (outside others) (history c).

(** What the steps of a call for an unregistered kernel leave of a process
    of the world [w]: its status, or [Exited] when it has exited. *)
Definition only_exits (w w' : world) : Prop :=
  ∀ p, status_of p w' = status_of p w
       ∨ (status_of p w' = Some Exited ∧ is_Some (status_of p w)).

End LocalRun.

(** [DriverTypes = Enum('DriverTypes', 'local aws_docker')]: the members
    by name, numbered from 1 in the order of the names. *)
Definition DriverTypes : list (string * nat) :=
  [("local", 1); ("aws_docker", 2)].

(** [AgentPortRange = tuple(range(5002, 5010))] *)
Definition range (start stop : Z) : list Z := seqZ start (stop - start).

Definition AgentPortRange : list Z := range 5002 5010.

(** ** Start and stop of the event module ([init], [shutdown]) *)

Module App.

(** The entries of [app] that the module keeps: the event server, the
    socket of the RPC server and the task of the monitor; an entry is
    [None] as long as nothing was stored under its key.  Sockets and tasks
    are known by a number, [next_obj] being the next one to be made. *)
Record t := mkApp {
  event_server : option Events.EventServer;
  event_sock : option nat;
  event_redis_monitor_task : option nat;
  next_obj : nat
}.

(** The calls made on asyncio and aiozmq. *)
Inductive action :=
| ServeRpc (bind : string) (sock : nat)
| EnsureFutureMonitor (task : nat)
| Cancel (task : nat)
| Sleep (milliseconds : nat)
| SockClose (sock : nat)
| SockWaitClosed (sock : nat).

#[global] Instance action_eq_dec : EqDecision action.
Proof. solve_decision. Defined.

(** [init(app)]; [bind_error] is what [aiozmq.rpc.serve_rpc] raises, if it
    does. *)
Definition init (events_port : Z) (bind_error : option exn) (app : t)
  : result () * t * list action :=
  let app := {| event_server := Some Events.init;
                event_sock := event_sock app;
                event_redis_monitor_task := event_redis_monitor_task app;
                next_obj := next_obj app |} in
  match bind_error with
  | Some e => (Raise e, app, [])
  | None =>
      let sock := next_obj app in
      let task := S sock in
      (Ok (),
       {| event_server := event_server app;
          event_sock := Some sock;
          event_redis_monitor_task := Some task;
          next_obj := S task |},
       [ServeRpc (tcp_address "*" events_port) sock;
        EnsureFutureMonitor task])
  end.


(** Whether a call closes a socket. *)
Definition closes (a : action) : bool :=
  match a with
  | SockClose _ | SockWaitClosed _ => true
  | _ => false
  end.

End App.

(** * Properties *)

(** ** Event bus *)

Section EventBus.
Import Events.

Variable call_error :
  callback → list value → list (string * value) → option exn.

Implicit Types (es : EventServer) (h : callback) (q : list scheduled).

Lemma dispatch_loop_accepted hs args kwargs q :
  Forall (λ h, call_outcome call_error h args kwargs = None) hs →
  dispatch_loop call_error hs args kwargs q
  = (q ++ map (λ h, schedule h args kwargs) hs, Ok ()).
Proof.
  intros Hall. revert q.
  induction Hall as [|h hs Hh _ IH]; intros q; simpl.
  - by rewrite app_nil_r.
  - by rewrite Hh, IH, <- app_assoc.
Qed.

Lemma dispatch_loop_rejected hs1 h hs2 e args kwargs q :
  Forall (λ h, call_outcome call_error h args kwargs = None) hs1 →
  call_outcome call_error h args kwargs = Some e →
  dispatch_loop call_error (hs1 ++ h :: hs2) args kwargs q
  = (q ++ map (λ h, schedule h args kwargs) hs1, Raise e).
Proof.
  intros Hall He. revert q.
  induction Hall as [|h1 hs1 Hh _ IH]; intros q; simpl.
  - by rewrite He, app_nil_r.
  - by rewrite Hh, IH, <- app_assoc.
Qed.

(** Whatever the handlers do, the loop schedules a beginning of the list
    of handlers, all of which let it go on. *)
Lemma dispatch_loop_split hs args kwargs q :
  ∃ hs1 hs2,
    hs = hs1 ++ hs2
    ∧ Forall (λ h, call_outcome call_error h args kwargs = None) hs1
    ∧ (dispatch_loop call_error hs args kwargs q).1
      = q ++ map (λ h, schedule h args kwargs) hs1
    ∧ match hs2 with
      | [] => (dispatch_loop call_error hs args kwargs q).2 = Ok ()
      | h :: _ =>
          ∃ e, call_outcome call_error h args kwargs = Some e
               ∧ (dispatch_loop call_error hs args kwargs q).2 = Raise e
      end.
Proof.
  revert q. induction hs as [|h hs IH]; intros q.
  - exists [], []. simpl. by rewrite app_nil_r.
  - simpl. destruct (call_outcome call_error h args kwargs) as [e|] eqn:Hh.
    + exists [], (h :: hs). simpl. rewrite app_nil_r.
      repeat split; [done|]. by exists e.
    + destruct (IH (q ++ [schedule h args kwargs]))
        as (hs1 & hs2 & -> & Hall & Hq & Hr).
      exists (h :: hs1), hs2. simpl. rewrite Hq, <- app_assoc.
      repeat split; [by constructor|done].
Qed.

Lemma defaultdict_get_fst (d : gmap string (list callback)) key :
  (defaultdict_get d key).1 = default [] (d !! key).
Proof. unfold defaultdict_get. by destruct (d !! key). Qed.

Lemma defaultdict_get_snd (d : gmap string (list callback)) key key' :
  default [] ((defaultdict_get d key).2 !! key') = default [] (d !! key').
Proof.
  unfold defaultdict_get. destruct (d !! key) eqn:Hd; simpl; [done|].
  destruct (decide (key = key')) as [->|Hne].
  - by rewrite lookup_insert_eq, Hd.
  - by rewrite lookup_insert_ne.
Qed.

(** The queue and the outcome of a dispatch are those of the loop over
    the handlers of the name. *)
Lemma local_dispatch_loop es e args kwargs :
  loop_queue (local_dispatch call_error es e args kwargs).1
  = (dispatch_loop call_error (handlers_of es e) args kwargs (loop_queue es)).1
  ∧ (local_dispatch call_error es e args kwargs).2
    = (dispatch_loop call_error (handlers_of es e) args kwargs
         (loop_queue es)).2.
Proof.
  unfold local_dispatch, handlers_of.
  rewrite <- defaultdict_get_fst.
  destruct (defaultdict_get (handlers es) e) as [hs d]; simpl.
  by destruct (dispatch_loop call_error hs args kwargs (loop_queue es)).
Qed.

Lemma local_dispatch_queue es e args kwargs :
  accepted call_error es e args kwargs →
  loop_queue (local_dispatch call_error es e args kwargs).1
  = loop_queue es ++ map (λ h, schedule h args kwargs) (handlers_of es e)
  ∧ (local_dispatch call_error es e args kwargs).2 = Ok ().
Proof.
  intros Hacc. destruct (local_dispatch_loop es e args kwargs) as [-> ->].
  by rewrite dispatch_loop_accepted.
Qed.

Lemma local_dispatch_handlers es e args kwargs e' :
  handlers_of (local_dispatch call_error es e args kwargs).1 e'
  = handlers_of es e'.
Proof.
  unfold local_dispatch, handlers_of.
  pose proof (defaultdict_get_snd (handlers es) e e') as H.
  destruct (defaultdict_get (handlers es) e) as [hs d]; simpl in *.
  by destruct (dispatch_loop call_error hs args kwargs (loop_queue es)).
Qed.

Lemma local_dispatch_log es e args kwargs :
  debug_log (local_dispatch call_error es e args kwargs).1
  = debug_log es ++ [debug_line e args].
Proof.
  unfold local_dispatch.
  destruct (defaultdict_get (handlers es) e) as [hs d].
  by destruct (dispatch_loop call_error hs args kwargs (loop_queue es)).
Qed.

Lemma add_handler_ok es e h :
  callable h = true →
  ∃ es', add_handler es e h = Ok es'
         ∧ handlers_of es' e = handlers_of es e ++ [h]
         ∧ (∀ e', e' ≠ e → handlers_of es' e' = handlers_of es e')
         ∧ loop_queue es' = loop_queue es.
Proof.
  intros Hc. unfold add_handler. rewrite Hc.
  pose proof (defaultdict_get_fst (handlers es) e) as Hfst.
  pose proof (defaultdict_get_snd (handlers es) e) as Hsnd.
  destruct (defaultdict_get (handlers es) e) as [l d]; simpl in *.
  eexists; split; [done|]. unfold handlers_of; simpl.
  split; [|split]; [| |done].
  - by rewrite lookup_insert_eq, Hfst.
  - intros e' Hne. rewrite lookup_insert_ne by done. apply Hsnd.
Qed.

Lemma add_handler_not_callable es e h :
  callable h = false → add_handler es e h = Raise AssertionError.
Proof. intros Hc. unfold add_handler. by rewrite Hc. Qed.


Lemma sched_handler_schedule h args kwargs :
  sched_handler (schedule h args kwargs) = h.
Proof. unfold schedule. by destruct (is_coroutine h). Qed.

Lemma sched_args_schedule h args kwargs :
  sched_args (schedule h args kwargs) = args.
Proof. unfold schedule. by destruct (is_coroutine h). Qed.

(** A dispatch schedules a handler as often as it is registered. *)
Lemma times_scheduled_map h args kwargs hs :
  times_scheduled h args (map (λ h', schedule h' args kwargs) hs)
  = length (filter (λ h', h' = h) hs).
Proof.
  unfold times_scheduled. induction hs as [|h' hs IH]; [done|].
  simpl. rewrite !filter_cons, sched_handler_schedule, sched_args_schedule.
  destruct (decide (h' = h)) as [->|Hne].
  - rewrite decide_True by done. simpl. by rewrite IH.
  - rewrite decide_False by (by intros [? _]). done.
Qed.


(** C6: dispatching an event name that resolves to no handler returns,
    schedules nothing and leaves what every event name resolves to as it
    was; the only trace is one debug line. *)
Theorem dispatch_without_handlers es e args kwargs :
  handlers_of es e = [] →
  let es' := (local_dispatch call_error es e args kwargs).1 in
  (local_dispatch call_error es e args kwargs).2 = Ok ()
  ∧ loop_queue es' = loop_queue es
  ∧ (∀ e', handlers_of es' e' = handlers_of es e')
  ∧ handlers_of es' e = []
  ∧ debug_log es' = debug_log es ++ [debug_line e args].
Proof.
  intros Hnone. simpl.
  assert (accepted call_error es e args kwargs) as Hacc.
  { unfold accepted. rewrite Hnone. constructor. }
  destruct (local_dispatch_queue es e args kwargs Hacc) as [-> ->].
  rewrite Hnone, app_nil_r.
  split; [done|]. split; [done|]. split; [apply local_dispatch_handlers|].
  split; [by rewrite local_dispatch_handlers|apply local_dispatch_log].
Qed.

End EventBus.


(** A coroutine function that does not take the argument stops the
    dispatch: [local_dispatch] raises its [TypeError], and neither it nor
    the handler registered after it is scheduled. *)
Example rejecting_coroutine_dispatch :
  ∃ es1 es2,
    Events.add_handler Events.init "e"
      (Events.Callback "h1" Events.CoroutineFunction) = Ok es1
    ∧ Events.add_handler es1 "e" (Events.Callback "h2" Events.Function)
      = Ok es2
    ∧ Events.local_dispatch
        (λ h _ _, if bool_decide (Events.cb_name h = "h1")
                  then Some TypeError else None)
        es2 "e" [VStr "x"] []
      = ({| Events.handlers := Events.handlers es2;
            Events.loop_queue := [];
            Events.debug_log := ["DISPATCH(e x)"] |},
         Raise TypeError).
Proof. do 2 eexists. split; [reflexivity|]. split; reflexivity. Qed.


Lemma dispatch_without_handlers_witness :
  Events.loop_queue
    (Events.local_dispatch (λ _ _ _, Some TypeError) Events.init
       "instance_terminated" [VStr "agent-lost"; VStr "inst-42"] []).1 = []
  ∧ Events.debug_log
      (Events.local_dispatch (λ _ _ _, Some TypeError) Events.init
         "instance_terminated" [VStr "agent-lost"; VStr "inst-42"] []).1
    = ["DISPATCH(instance_terminated agent-lost)"].
Proof.
  destruct (dispatch_without_handlers (λ _ _ _, Some TypeError) Events.init
              "instance_terminated" [VStr "agent-lost"; VStr "inst-42"] []
              eq_refl)
    as (_ & Hq & _ & _ & Hlog).
  split; [exact Hq | exact Hlog].
Defined.

(** ** Lease-expiry monitor *)

Section LeaseMonitor.
Import Events Monitor MonitorRun.

Variable call_error :
  callback → list value → list (string * value) → option exn.

Implicit Types (st : mstate) (s pfx rest key : string) (sep : ascii).

Lemma split_not_nil sep m s : split sep m s ≠ [].
Proof.
  destruct s as [|c s]; simpl; [done|].
  case_decide.
  - by destruct m as [[|n]|].
  - by destruct (split sep m s).
Qed.

Lemma split_no_more sep s : split sep (Some 0) s = [s].
Proof.
  induction s as [|c s IH]; simpl; [done|].
  case_decide; [done|]. by rewrite IH.
Qed.

(** The field before the first separator. *)
Lemma split_first sep m pfx rest :
  free_of sep pfx = true →
  split sep m (pfx +:+ String sep rest)
  = match m with
    | Some 0 => [pfx +:+ String sep rest]
    | Some (S n) => pfx :: split sep (Some n) rest
    | None => pfx :: split sep None rest
    end.
Proof.
  intros Hfree. induction pfx as [|c pfx IH]; simpl in *.
  - by rewrite decide_True by done.
  - apply andb_prop in Hfree as [Hc Hfree%IH].
    apply bool_decide_eq_true in Hc.
    rewrite decide_False by done. rewrite Hfree.
    by destruct m as [[|n]|].
Qed.

Lemma ascii_only_app s1 s2 :
  ascii_only (s1 +:+ s2) = ascii_only s1 && ascii_only s2.
Proof.
  induction s1 as [|c s1 IH]; simpl; [done|].
  by rewrite IH, andb_assoc.
Qed.

(** The event name the monitor reads off an expiry channel. *)
Lemma expired_channel_name pfx :
  plain pfx = true →
  decode_ascii (pfx +:+ ":expired") ≫= (λ d, index (split ":" None d) 1)
  = Ok "expired".
Proof.
  intros [Hascii Hfree]%andb_prop.
  unfold decode_ascii. rewrite ascii_only_app, Hascii. simpl.
  change (pfx +:+ ":expired") with (pfx +:+ String ":" "expired").
  by rewrite split_first.
Qed.

Lemma shadow_key_split inst_id :
  index (split ":" (Some 1) ("shadow:" +:+ inst_id)) 1 = Ok inst_id.
Proof.
  change ("shadow:" +:+ inst_id) with ("shadow" +:+ String ":" inst_id).
  rewrite split_first by done. by rewrite split_no_more.
Qed.

Lemma shadow_key_startswith inst_id :
  startswith "shadow:" ("shadow:" +:+ inst_id) = true.
Proof. unfold startswith. simpl. by destruct inst_id. Qed.

(** What the body reads off the expiry of a lease. *)
Lemma expired_lease_shadow pfx inst_id :
  plain pfx = true →
  expired_lease (pfx +:+ ":expired") ("shadow:" +:+ inst_id)
  = Ok (Some inst_id).
Proof.
  intros Hplain. unfold expired_lease.
  pose proof (expired_channel_name pfx Hplain) as Hname.
  destruct (decode_ascii (pfx +:+ ":expired")) as [d|e]; [|done].
  simpl in Hname |- *. rewrite Hname. simpl.
  change ("" +:+ inst_id) with inst_id.
  rewrite split_no_more. unfold startswith. by destruct inst_id.
Qed.

(** What it reads off any other key. *)
Lemma expired_lease_other channel key :
  startswith "shadow:" key = false →
  expired_lease channel key = Ok None
  ∨ ∃ e, expired_lease channel key = Raise e.
Proof.
  intros Hkey. unfold expired_lease.
  destruct (decode_ascii channel) as [d|e]; simpl; [|by eauto].
  destruct (index (split ":" None d) 1) as [evname|e]; simpl; [|by eauto].
  rewrite Hkey, andb_false_r. by left.
Qed.

Lemma dispatched_app t1 t2 :
  dispatched (t1 ++ t2) = dispatched t1 ++ dispatched t2.
Proof. unfold dispatched. apply omap_app. Qed.

(** C1: on an expiry notification for the key [shadow:<inst_id>] the
    monitor makes exactly one call of [local_dispatch], for the event
    [instance_terminated] with the arguments ["agent-lost"] and [inst_id],
    which leaves the bus as that call leaves it; when the call returns the
    monitor goes on with the next [get], and when it raises the exception
    ends the loop.  On a notification whose key does not start with
    [shadow:] it calls nothing, leaves the bus as it was and has put no
    event on it. *)
Theorem expired_lease_emits_one_event pfx st (more : list received) :
  plain pfx = true →
  (∀ inst_id,
     let args := [VStr "agent-lost"; VStr inst_id] in
     let r := local_dispatch call_error (bus st) "instance_terminated" args [] in
     on_message call_error (pfx +:+ ":expired") ("shadow:" +:+ inst_id) st
     = ({| trace := trace st ++ [LocalDispatch "instance_terminated" args];
           bus := r.1 |},
        r.2)
     ∧ (r.2 = Ok () →
        while_true call_error
          (Got (pfx +:+ ":expired") ("shadow:" +:+ inst_id) :: more) st
        = while_true call_error more
            {| trace := (trace st ++ [Get])
                        ++ [LocalDispatch "instance_terminated" args];
               bus := r.1 |})
     ∧ (∀ e, r.2 = Raise e →
        while_true call_error
          (Got (pfx +:+ ":expired") ("shadow:" +:+ inst_id) :: more) st
        = ({| trace := (trace st ++ [Get])
                       ++ [LocalDispatch "instance_terminated" args];
              bus := r.1 |},
           Exc e)))
  ∧ (∀ channel key,
       startswith "shadow:" key = false →
       (on_message call_error channel key st).1 = st
       ∧ bus (while_true call_error [Got channel key] st).1 = bus st
       ∧ dispatched (trace (while_true call_error [Got channel key] st).1)
         = dispatched (trace st)).
Proof.
  intros Hplain.
  assert (∀ st' channel key,
    startswith "shadow:" key = false →
    (on_message call_error channel key st').1 = st') as Hnone.
  { intros st' channel key Hkey. unfold on_message.
    by destruct (expired_lease_other channel key Hkey) as [->|[e ->]]. }
  split.
  - intros inst_id. simpl.
    split; [|split].
    + unfold on_message. by rewrite expired_lease_shadow.
    + intros Hok. simpl. unfold on_message.
      rewrite expired_lease_shadow by done. simpl. by rewrite Hok.
    + intros e He. simpl. unfold on_message.
      rewrite expired_lease_shadow by done. simpl. by rewrite He.
  - intros channel key Hkey. split; [by apply Hnone|].
    simpl. pose proof (Hnone (call Get st) channel key Hkey) as Hst.
    destruct (on_message call_error channel key (call Get st)) as [st' [[]|e]];
      simpl in Hst; subst st'; simpl;
      by rewrite ?dispatched_app, ?app_nil_r.
Qed.

(** The body only ever appends a call of [local_dispatch], and appends
    nothing when it raises before the dispatch. *)
Lemma on_message_trace channel key st :
  ∃ t, trace (on_message call_error channel key st).1 = trace st ++ t
       ∧ forallb in_loop t = true.
Proof.
  unfold on_message.
  destruct (expired_lease channel key) as [[inst_id|]|e]; simpl.
  - by eexists [_].
  - exists []. by rewrite app_nil_r.
  - exists []. by rewrite app_nil_r.
Qed.

(** The body leaves what every event name resolves to as it was. *)
Lemma on_message_handlers channel key st e :
  handlers_of (bus (on_message call_error channel key st).1) e
  = handlers_of (bus st) e.
Proof.
  unfold on_message.
  destruct (expired_lease channel key) as [[inst_id|]|err]; simpl; [|done..].
  apply local_dispatch_handlers.
Qed.

Lemma leases_accepted_handlers (es es' : EventServer) :
  (∀ e, handlers_of es' e = handlers_of es e) →
  leases_accepted call_error es → leases_accepted call_error es'.
Proof.
  intros Hh Hacc inst_id. unfold accepted. rewrite Hh. apply Hacc.
Qed.

(** With handlers that take the lease events, the body returns on every
    message it can read. *)
Lemma on_message_accepted channel key st :
  is_ok (expired_lease channel key) = true →
  leases_accepted call_error (bus st) →
  (on_message call_error channel key st).2 = Ok ().
Proof.
  intros Hok Hacc. unfold on_message.
  destruct (expired_lease channel key) as [[inst_id|]|err]; simpl; [|done..].
  apply local_dispatch_queue, Hacc.
Qed.

Lemma leaves_loop_false i :
  leaves_loop i = false →
  ∃ channel key, i = Got channel key
                 ∧ is_ok (expired_lease channel key) = true.
Proof.
  destruct i as [channel key| |e]; simpl; [|done..].
  intros Hok%negb_false_iff. by exists channel, key.
Qed.

(** Whatever it is fed with, the loop only makes calls of the loop, and
    leaves what every event name resolves to as it was. *)
Lemma while_true_trace inputs st :
  (∃ t, trace (while_true call_error inputs st).1 = trace st ++ t
        ∧ forallb in_loop t = true)
  ∧ ∀ e, handlers_of (bus (while_true call_error inputs st).1) e
         = handlers_of (bus st) e.
Proof.
  revert st. induction inputs as [|i inputs IH]; intros st; simpl.
  - split; [by exists [Get]|done].
  - destruct i as [channel key| |e]; [|split; [by exists [Get]|done]..].
    destruct (on_message_trace channel key (call Get st)) as (t1 & Ht1 & Hl1).
    pose proof (on_message_handlers channel key (call Get st)) as Hh1.
    destruct (on_message call_error channel key (call Get st)) as [st' [[]|e]];
      simpl in *.
    + destruct (IH st') as [(t2 & Ht2 & Hl2) Hh2]. split.
      * exists ([Get] ++ t1 ++ t2). rewrite Ht2, Ht1, <- !app_assoc.
        split; [done|]. simpl. by rewrite forallb_app, Hl1, Hl2.
      * intros e. by rewrite Hh2, Hh1.
    + split; [|done].
      exists ([Get] ++ t1). rewrite Ht1, <- !app_assoc. by split.
Qed.

(** While no input leaves the loop and the handlers take the lease
    events, the coroutine stays in the loop. *)
Lemma while_true_pending inputs st :
  Forall (λ i, leaves_loop i = false) inputs →
  leases_accepted call_error (bus st) →
  (while_true call_error inputs st).2 = Pending.
Proof.
  intros Hall. revert st.
  induction Hall as [|i inputs Hi _ IH]; intros st Hacc; simpl; [done|].
  destruct (leaves_loop_false i Hi) as (channel & key & -> & Hok).
  pose proof (on_message_accepted channel key (call Get st) Hok Hacc) as Hres.
  pose proof (on_message_handlers channel key (call Get st)) as Hh.
  destruct (on_message call_error channel key (call Get st)) as [st' r];
    simpl in *.
  subst r. apply IH. by apply (leases_accepted_handlers (bus st)).
Qed.

(** The input that leaves a loop still running decides how the [try]
    block ends, and adds no call. *)
Lemma while_true_exit pre r post st :
  (while_true call_error pre st).2 = Pending → leaves_loop r = true →
  while_true call_error (pre ++ r :: post) st
  = ((while_true call_error pre st).1, exit_of r).
Proof.
  revert st. induction pre as [|i pre IH]; intros st Hp Hr; simpl in *.
  - destruct r as [channel key| |e]; simpl in *; [|done..].
    apply negb_true_iff in Hr. unfold on_message.
    by destruct (expired_lease channel key) as [[?|]|e].
  - destruct i as [channel key| |e]; [|done..].
    destruct (on_message call_error channel key (call Get st)) as [st' [[]|e]];
      [|done].
    by apply IH.
Qed.

Lemma exit_of_not_pending r : leaves_loop r = true → exit_of r ≠ Pending.
Proof.
  destruct r as [channel key| |e]; simpl; [|done..].
  by destruct (expired_lease channel key).
Qed.

Lemma setup_trace db es :
  setup db {| trace := []; bus := es |}
  = {| trace := [CreateRedis; ConfigSet "notify-keyspace-events" "Ex";
                 Psubscribe (chprefix db)];
       bus := es |}.
Proof. done. Qed.

(** The [finally] clause, once the [try] block is left: the calls it
    makes and how the coroutine ends. *)
Lemma finally_exit db ans st c :
  c ≠ Pending →
  finally db ans (st, c)
  = ({| trace := trace st ++ cleanup_calls db ans; bus := bus st |},
     after_cleanup ans c).
Proof.
  intros Hc. unfold finally, cleanup, cleanup_calls, after_cleanup,
    cleanup_error, call.
  destruct ans as [[u|] [cl|] [wc|]]; simpl;
    destruct c as [|e|]; try done; by rewrite <- ?app_assoc.
Qed.

Lemma except_cancelled_not_pending c :
  c ≠ Pending → except_cancelled c ≠ Pending.
Proof. by destruct c as [|[]|]. Qed.

(** The whole coroutine, once the [try] block is left. *)
Lemma monitor_exit db ans inputs es :
  (while_true call_error inputs
     (setup db {| trace := []; bus := es |})).2 ≠ Pending →
  monitor_redis_events db call_error ans inputs es
  = ({| trace :=
          trace (while_true call_error inputs
                   (setup db {| trace := []; bus := es |})).1
          ++ cleanup_calls db ans;
        bus := bus (while_true call_error inputs
                      (setup db {| trace := []; bus := es |})).1 |},
     after_cleanup ans
       (except_cancelled
          (while_true call_error inputs
             (setup db {| trace := []; bus := es |})).2)).
Proof.
  intros Hc. unfold monitor_redis_events.
  destruct (while_true _ _ _) as [st c]. cbn [fst snd] in *.
  by rewrite finally_exit by by apply except_cancelled_not_pending.
Qed.

(** The coroutine while the [try] block is not left. *)
Lemma monitor_pending db ans inputs es :
  (while_true call_error inputs
     (setup db {| trace := []; bus := es |})).2 = Pending →
  monitor_redis_events db call_error ans inputs es
  = ((while_true call_error inputs
        (setup db {| trace := []; bus := es |})).1, Pending).
Proof.
  intros Hc. unfold monitor_redis_events.
  destruct (while_true _ _ _) as [st c]; simpl in *. by subst c.
Qed.

Lemma patterns_held_app t1 t2 :
  patterns_held (t1 ++ t2)
  = foldl (λ held a,
             match a with
             | Psubscribe p => held ++ [p]
             | Close => []
             | _ => held
             end) (patterns_held t1) t2.
Proof. unfold patterns_held. apply foldl_app. Qed.

(** The calls of the loop leave the subscriptions as they are. *)
Lemma patterns_held_in_loop t1 t2 :
  forallb in_loop t2 = true → patterns_held (t1 ++ t2) = patterns_held t1.
Proof.
  rewrite patterns_held_app. generalize (patterns_held t1).
  induction t2 as [|a t2 IH]; intros held Hl; simpl in *; [done|].
  apply andb_prop in Hl as [Ha Hl].
  destruct a; try done; by apply IH.
Qed.

(** As long as the coroutine is inside the loop, it has neither
    unsubscribed nor closed the connection. *)
Lemma monitor_stays_subscribed db ans inputs es :
  Forall (λ i, leaves_loop i = false) inputs →
  leases_accepted call_error es →
  ∃ t, trace (monitor_redis_events db call_error ans inputs es).1
       = [CreateRedis; ConfigSet "notify-keyspace-events" "Ex";
          Psubscribe (chprefix db)] ++ t
       ∧ forallb in_loop t = true
       ∧ (monitor_redis_events db call_error ans inputs es).2 = Pending.
Proof.
  intros Hall Hacc.
  rewrite monitor_pending by by apply while_true_pending.
  destruct (while_true_trace inputs (setup db {| trace := []; bus := es |}))
    as [(t & Ht & Hl) _].
  exists t. cbn [fst snd]. by rewrite Ht.
Qed.

(** C7, as the code has it: when the [try] block is left, whichever way,
    the [finally] clause awaits [unsubscribe], then calls [close], then
    awaits [wait_closed], each only if the one before it returned, and an
    exception of one of them takes the place of the outcome of the
    block.  So when [unsubscribe] raises the connection is never closed
    and stays subscribed to the pattern, also on the cancellation path;
    only when the three calls return is the cleanup complete, with a
    cancellation swallowed and any other exception going on after it. *)
Theorem cleanup_on_every_exit db ans inputs es :
  let tried :=
    while_true call_error inputs (setup db {| trace := []; bus := es |}) in
  let run := monitor_redis_events db call_error ans inputs es in
  tried.2 ≠ Pending →
  (∃ t, trace run.1
        = [CreateRedis; ConfigSet "notify-keyspace-events" "Ex";
           Psubscribe (chprefix db)] ++ t ++ cleanup_calls db ans
        ∧ forallb in_loop t = true)
  ∧ run.2 = after_cleanup ans (except_cancelled tried.2)
  ∧ (∀ e, unsubscribe_raises ans = Some e →
       run.2 = Exc e
       ∧ (Close ∉ trace run.1) ∧ (WaitClosed ∉ trace run.1)
       ∧ patterns_held (trace run.1) = [chprefix db])
  ∧ (ans = all_return →
       run.2 = except_cancelled tried.2
       ∧ (tried.2 = Exc CancelledError ∨ tried.2 = Normal → run.2 = Normal)
       ∧ (∃ t, trace run.1
               = t ++ [Unsubscribe (chprefix db); Close; WaitClosed]
               ∧ Forall (λ a, MonitorRun.releases a = false) t)
       ∧ patterns_held (trace run.1) = []).
Proof.
  intros tried run Hc. subst run.
  rewrite monitor_exit by done. fold tried.
  destruct (while_true_trace inputs (setup db {| trace := []; bus := es |}))
    as [(t & Ht & Hl) _].
  fold tried in Ht. clearbody tried. destruct tried as [st c].
  simpl in Ht, Hc. cbn [fst snd trace bus]. rewrite Ht.
  assert (Forall (λ a, releases a = false) t) as Hrel.
  { apply Forall_forall. intros a Ha.
    rewrite forallb_forall in Hl. specialize (Hl a).
    rewrite <- list_elem_of_In in Hl. specialize (Hl Ha). by destruct a. }
  assert (∀ a, releases a = true → a ∉ t) as Hnotin.
  { intros a Ha Hin. rewrite Forall_forall in Hrel.
    specialize (Hrel a Hin). congruence. }
  assert (∀ a, a ∈ [Close; WaitClosed] →
            a ∉ ([CreateRedis; ConfigSet "notify-keyspace-events" "Ex";
                  Psubscribe (chprefix db)] ++ t)
                ++ [Unsubscribe (chprefix db)]) as Hopen.
  { intros a Ha. rewrite !not_elem_of_app, !not_elem_of_cons.
    apply list_elem_of_In in Ha.
    destruct Ha as [<-|[<-|[]]];
      repeat split; try done; try apply not_elem_of_nil; by apply Hnotin. }
  split; [|split; [|split]].
  - exists t. by split.
  - done.
  - intros e He. unfold after_cleanup, cleanup_error, cleanup_calls.
    rewrite He. cbv beta iota. split; [done|].
    split; [|split].
    + apply Hopen. set_solver.
    + apply Hopen. set_solver.
    + rewrite patterns_held_app. cbn [foldl].
      change (CreateRedis :: ConfigSet "notify-keyspace-events" "Ex"
              :: Psubscribe (chprefix db) :: t)
        with ([CreateRedis; ConfigSet "notify-keyspace-events" "Ex";
               Psubscribe (chprefix db)] ++ t).
      by rewrite patterns_held_in_loop.
  - intros ->. unfold after_cleanup, cleanup_calls.
    cbn [all_return cleanup_error unsubscribe_raises close_raises
         wait_closed_raises].
    split; [done|]. split; [by intros [-> | ->]|].
    split.
    + eexists. split; [reflexivity|].
      by repeat apply Forall_cons_2.
    + by rewrite patterns_held_app.
Qed.

End LeaseMonitor.

Lemma expired_lease_emits_one_event_witness :
  Monitor.on_message (λ _ _ _, None) "__keyevent@1__:expired" "shadow:inst-42"
    {| Monitor.trace := []; Monitor.bus := Events.init |}
  = ({| Monitor.trace :=
          [Monitor.LocalDispatch "instance_terminated"
             [VStr "agent-lost"; VStr "inst-42"]];
        Monitor.bus :=
          (Events.local_dispatch (λ _ _ _, None) Events.init
             "instance_terminated" [VStr "agent-lost"; VStr "inst-42"] []).1 |},
     Ok ())
  ∧ Monitor.dispatched
      (Monitor.trace
         (Monitor.while_true (λ _ _ _, None)
            [Monitor.Got "__keyevent@1__:expired" "other:foo"]
            {| Monitor.trace := []; Monitor.bus := Events.init |}).1)
    = [].
Proof.
  destruct (expired_lease_emits_one_event (λ _ _ _, None) "__keyevent@1__"
              {| Monitor.trace := []; Monitor.bus := Events.init |} [] eq_refl)
    as [Hone Hnone].
  split.
  - exact (proj1 (Hone "inst-42")).
  - exact (proj2 (proj2 (Hnone "__keyevent@1__:expired" "other:foo" eq_refl))).
Defined.

Lemma cleanup_on_every_exit_witness :
  Monitor.monitor_redis_events 1 (λ _ _ _, None)
    (Monitor.mkAnswers (Some CancelledError) None None)
    [Monitor.Got "__keyevent@1__:expired" "shadow:inst-42"; Monitor.GotNone]
    Events.init
  = ({| Monitor.trace :=
          [Monitor.CreateRedis;
           Monitor.ConfigSet "notify-keyspace-events" "Ex";
           Monitor.Psubscribe "__keyevent@1__*";
           Monitor.Get;
           Monitor.LocalDispatch "instance_terminated"
             [VStr "agent-lost"; VStr "inst-42"];
           Monitor.Get;
           Monitor.Unsubscribe "__keyevent@1__*"];
        Monitor.bus :=
          (Events.local_dispatch (λ _ _ _, None) Events.init
             "instance_terminated" [VStr "agent-lost"; VStr "inst-42"] []).1 |},
     Monitor.Exc CancelledError)
  ∧ Monitor.patterns_held
      (Monitor.trace
         (Monitor.monitor_redis_events 1 (λ _ _ _, None)
            (Monitor.mkAnswers (Some CancelledError) None None)
            [Monitor.Got "__keyevent@1__:expired" "shadow:inst-42";
             Monitor.GotNone]
            Events.init).1)
    = ["__keyevent@1__*"].
Proof.
  assert ((Monitor.while_true (λ _ _ _, None)
             [Monitor.Got "__keyevent@1__:expired" "shadow:inst-42";
              Monitor.GotNone]
             (Monitor.setup 1
                {| Monitor.trace := []; Monitor.bus := Events.init |})).2
          ≠ Monitor.Pending) as Hleft.
  { vm_compute. discriminate. }
  destruct (cleanup_on_every_exit (λ _ _ _, None) 1
              (Monitor.mkAnswers (Some CancelledError) None None)
              [Monitor.Got "__keyevent@1__:expired" "shadow:inst-42";
               Monitor.GotNone]
              Events.init Hleft)
    as (_ & _ & Hraises & _).
  destruct (Hraises CancelledError eq_refl) as (_ & _ & _ & Hheld).
  split; [reflexivity | exact Hheld].
Defined.

(** ** Local driver: tearing a kernel down *)

Section LocalTeardown.
Import LocalDriver.

Implicit Types (c : config) (w : world) (d : t) (kernel : Kernel).

Lemma run_app kernel ls1 ls2 c :
  run kernel (ls1 ++ ls2) c = run kernel ls1 c ≫= run kernel ls2.
Proof.
  revert c. induction ls1 as [|l ls1 IH]; intros c; simpl; [done|].
  destruct (step kernel l c); [apply IH|done].
Qed.

(** A property kept by every step holds along every run. *)
Lemma run_invariant (I : config → Prop) kernel :
  (∀ l c c', I c → step kernel l c = Some c' → I c') →
  ∀ ls c c', I c → run kernel ls c = Some c' → I c'.
Proof.
  intros Hstep ls. induction ls as [|l ls IH]; intros c c' Hc Hrun; simpl in *.
  - by simplify_eq.
  - destruct (step kernel l c) as [c1|] eqn:Hs; [|done].
    eapply IH; [|done]. by eapply Hstep.
Qed.

Lemma status_of_set_status proc q s w :
  status_of proc (set_status q s w)
  = if decide (proc = q) then (λ _, s) <$> status_of proc w
    else status_of proc w.
Proof.
  unfold status_of, set_status; simpl. case_decide as Hq.
  - subst q. rewrite lookup_alter_eq. by destruct (procs w !! proc).
  - by rewrite lookup_alter_ne.
Qed.

(** A process that has exited stays so, whatever happens next. *)
Lemma exited_stays_exited proc q w :
  status_of proc w = Some Exited →
  status_of proc (set_status q Exited w) = Some Exited.
Proof.
  intros Hex. rewrite status_of_set_status. case_decide; [|done].
  by rewrite Hex.
Qed.

(** A process that was signalled or has exited never runs again. *)
Lemma exit_keeps_stopped proc q w :
  status_of proc w ≠ Some Running →
  status_of proc (set_status q Exited w) ≠ Some Running.
Proof.
  intros Hst. rewrite status_of_set_status. case_decide; [|done].
  by destruct (status_of proc w).
Qed.

(** What [terminate] answers, by the state of the process. *)
Lemma terminate_exited proc w :
  status_of proc w = Some Exited → terminate proc w = Raise ProcessLookupError.
Proof. intros Hst. unfold terminate. by rewrite Hst. Qed.

Lemma terminate_returns proc w w' :
  terminate proc w = Ok w' →
  status_of proc w ≠ Some Exited
  ∧ status_of proc w' ≠ Some Running
  ∧ (is_Some (status_of proc w) → is_Some (status_of proc w')).
Proof.
  unfold terminate. intros Ht.
  destruct (status_of proc w) as [[]|] eqn:Hst; simplify_eq/=.
  - rewrite status_of_set_status, decide_True, Hst by done. simpl.
    split; [done|]. split; [done|]. by eauto.
  - rewrite Hst. split; [done|]. split; [done|]. by eauto.
  - rewrite Hst. split; [done|]. split; [done|]. by intros [? ?].
Qed.

Lemma terminate_alive proc w :
  is_Some (status_of proc w) → status_of proc w ≠ Some Exited →
  ∃ w', terminate proc w = Ok w' ∧ is_Some (status_of proc w').
Proof.
  intros [s Hs] Hne. unfold terminate. rewrite Hs.
  destruct s; [| |done].
  - eexists. split; [done|].
    rewrite status_of_set_status, decide_True, Hs by done. by eauto.
  - eexists. split; [done|]. by eauto.
Qed.

Lemma teardown_inv_step kernel proc l c c' :
  teardown_inv kernel proc c → step kernel l c = Some c' →
  teardown_inv kernel proc c'.
Proof.
  unfold teardown_inv, step. intros Hinv Hstep.
  destruct l as [|e|q].
  - destruct (at_pc c) as [|p|p| |r] eqn:Hpc.
    + destruct Hinv as [Hh Ha]. rewrite Ha in Hstep. by simplify_eq/=.
    + destruct Hinv as (-> & Hh & Ha).
      destruct (terminate proc (outside c)) as [w'|e] eqn:Ht; simplify_eq/=.
      * apply terminate_returns in Ht as (_ & Hstop & _). by rewrite Hh.
      * eauto.
    + destruct Hinv as (-> & Hh & Ha & Hstop).
      destruct (status_of proc (outside c)) as [[]|] eqn:Hst; simplify_eq/=.
      by rewrite Hh.
    + destruct Hinv as (Hh & Ha & Hst). rewrite Ha in Hstep. simplify_eq/=.
      rewrite Hh, lookup_delete_eq. done.
    + done.
  - destruct (at_pc c) as [|p|p| |r] eqn:Hpc; simplify_eq/=.
    + destruct Hinv as (-> & Hh & Ha). eauto.
    + destruct Hinv as (-> & Hh & Ha & Hstop). eauto.
  - destruct (status_of q (outside c)) as [s|] eqn:Hq; simplify_eq/=.
    destruct (at_pc c) as [|p|p| |[[]|e]]; try done.
    + destruct Hinv as (-> & Hh & Ha & Hstop).
      eauto 6 using exit_keeps_stopped.
    + destruct Hinv as (Hh & Ha & Hst). eauto using exited_stays_exited.
    + destruct Hinv as (Hh & Ha & Hst). eauto using exited_stays_exited.
    + destruct Hinv as ([Hh | [Hh Hstop]] & Ha);
        eauto 6 using exit_keeps_stopped.
Qed.

Lemma teardown_inv_run kernel proc d w ls c :
  agents d !! id kernel = Some proc →
  run kernel ls (destroy_kernel d w) = Some c →
  teardown_inv kernel proc c.
Proof.
  intros Ha Hrun.
  apply (run_invariant (teardown_inv kernel proc) kernel
           (λ l c1 c2, teardown_inv_step kernel proc l c1 c2)
           ls (destroy_kernel d w) c); [|done].
  by unfold teardown_inv.
Qed.

Lemma gone_inv_step kernel proc d l c c' :
  agents d !! id kernel = Some proc →
  gone_inv kernel proc d c → step kernel l c = Some c' →
  gone_inv kernel proc d c'.
Proof.
  unfold gone_inv, step. intros Hd (Hdrv & Hh & Hst & Hpc) Hstep.
  destruct l as [|e|q].
  - destruct Hpc as [Hpc|[Hpc|[e Hpc]]]; rewrite Hpc in Hstep.
    + rewrite Hdrv, Hd in Hstep. simplify_eq/=. eauto 6.
    + rewrite (terminate_exited _ _ Hst) in Hstep. simplify_eq/=. eauto 8.
    + done.
  - destruct Hpc as [Hpc|[Hpc|[e' Hpc]]]; rewrite Hpc in Hstep;
      simplify_eq/=. eauto 8.
  - destruct (status_of q (outside c)) as [s|] eqn:Hq; simplify_eq/=.
    eauto using exited_stays_exited.
Qed.

(** Entries of other kernels are never touched. *)
Lemma other_entries_kept kernel d w ls c k' :
  k' ≠ id kernel →
  run kernel ls (destroy_kernel d w) = Some c →
  agents (driver c) !! k' = agents d !! k'.
Proof.
  intros Hne Hrun.
  apply (run_invariant (λ c, agents (driver c) !! k' = agents d !! k')
           kernel) with (ls := ls) (c := destroy_kernel d w); [|done..].
  intros l c1 c2 Hc1 Hstep. unfold step in Hstep.
  repeat case_match; simplify_eq/=; try done.
  by rewrite lookup_delete_ne.
Qed.

(** When the process had not exited at the call and exits once
    signalled, the call runs to its end. *)
Lemma teardown_completes kernel proc d w :
  agents d !! id kernel = Some proc →
  is_Some (status_of proc w) → status_of proc w ≠ Some Exited →
  ∃ w0,
    terminate proc w = Ok w0
    ∧ run kernel [Step; Step; Exits proc; Step; Step] (destroy_kernel d w)
      = Some (mkConfig (Done (Ok ()))
                       {| agents := delete (id kernel) (agents d) |}
                       (set_status proc Exited w0) (teardown kernel proc))
    ∧ status_of proc (set_status proc Exited w0) = Some Exited.
Proof.
  intros Ha Hs Hne.
  destruct (terminate_alive proc w Hs Hne) as (w0 & Ht & [s' Hs']).
  exists w0. split; [done|].
  assert (status_of proc (set_status proc Exited w0) = Some Exited) as Hex.
  { by rewrite status_of_set_status, decide_True, Hs' by done. }
  split; [|done].
  unfold destroy_kernel. simpl. rewrite Ha. simpl. rewrite Ht. simpl.
  rewrite Hs'. simpl. rewrite Hex. simpl. by rewrite Ha.
Qed.

(** A call that has returned normally has removed the entry. *)
Lemma returned_means_removed kernel d w ls c :
  run kernel ls (destroy_kernel d w) = Some c →
  at_pc c = Done (Ok ()) →
  agents (driver c) !! id kernel = None.
Proof.
  intros Hrun.
  apply (run_invariant
           (λ c, at_pc c = Done (Ok ()) → agents (driver c) !! id kernel = None)
           kernel) with (ls := ls) (c := destroy_kernel d w); [|done..].
  intros l c1 c2 Hc1 Hstep Hpc. unfold step in Hstep.
  repeat case_match; simplify_eq/=;
    first [done | apply lookup_delete_eq | by apply Hc1].
Qed.

Lemma not_found_inv_step kernel d l c c' :
  agents d !! id kernel = None →
  not_found_inv kernel d c → step kernel l c = Some c' →
  not_found_inv kernel d c'.
Proof.
  unfold not_found_inv, step. intros Hd (Hdrv & Hh & Hpc) Hstep.
  destruct Hpc as [Hpc|Hpc]; rewrite Hpc in Hstep;
    destruct l as [|e|q]; simplify_eq/=.
  - rewrite Hd in Hstep. simplify_eq/=. eauto.
  - case_match; simplify_eq/=. eauto.
  - case_match; simplify_eq/=. eauto.
Qed.

(** C3: once [destroy_kernel(kernel)] has returned, a second call raises
    [KeyError(kernel.id)] at its first statement: before any process is
    touched, with the registry as the first call left it, and with no entry
    for the kernel in it.  Nothing else can happen in the second call. *)
Theorem second_destroy_kernel_not_found kernel d w ls c :
  run kernel ls (destroy_kernel d w) = Some c →
  at_pc c = Done (Ok ()) →
  agents (driver c) !! id kernel = None
  ∧ step kernel Step (destroy_kernel (driver c) (outside c))
    = Some (mkConfig (Done (Raise (KeyError (id kernel))))
                     (driver c) (outside c) [])
  ∧ ∀ ls' c',
      run kernel ls' (destroy_kernel (driver c) (outside c)) = Some c' →
      driver c' = driver c ∧ history c' = []
      ∧ (at_pc c' = AtLookup
         ∨ at_pc c' = Done (Raise (KeyError (id kernel)))).
Proof.
  intros Hrun Hpc.
  pose proof (returned_means_removed kernel d w ls c Hrun Hpc) as Hgone.
  split; [done|]. split.
  - unfold step, destroy_kernel. simpl. by rewrite Hgone.
  - intros ls' c' Hrun'.
    apply (run_invariant (not_found_inv kernel (driver c)) kernel
             (λ l c1 c2, not_found_inv_step kernel (driver c) l c1 c2 Hgone)
             ls' (destroy_kernel (driver c) (outside c)) c'); [|done].
    unfold not_found_inv. simpl. eauto.
Qed.

Lemma second_destroy_kernel_not_found_witness :
  step (mkKernel "local/u0" (mkInstance "i-0" "127.0.0.1" 0) None None) Step
    (destroy_kernel (mkLocalDriver (delete "local/u0" {[ "local/u0" := 7 ]}))
       (set_status 7 Exited
          (set_status 7 Terminating
             (mkWorld 1 {[ 7 := mkProcess [] Running ]} 8))))
  = Some (mkConfig (Done (Raise (KeyError "local/u0")))
            (mkLocalDriver (delete "local/u0" {[ "local/u0" := 7 ]}))
            (set_status 7 Exited
               (set_status 7 Terminating
                  (mkWorld 1 {[ 7 := mkProcess [] Running ]} 8)))
            []).
Proof.
  exact (proj1 (proj2
    (second_destroy_kernel_not_found
       (mkKernel "local/u0" (mkInstance "i-0" "127.0.0.1" 0) None None)
       (mkLocalDriver {[ "local/u0" := 7 ]})
       (mkWorld 1 {[ 7 := mkProcess [] Running ]} 8)
       [Step; Step; Exits 7; Step; Step]
       _ eq_refl eq_refl))).
Defined.

(** C4, as the code has it.  For a kernel in the registry whose process
    has exited already, [destroy_kernel] raises [ProcessLookupError] in
    [terminate]: it never waits and never removes the entry, in this call
    and in every later one.  For a process that has not exited, the call
    signals it, waits until its exit is confirmed and then removes the
    entry, and it does return once the process exits.  In every state of
    every run what has been done is a beginning of that sequence; a
    signalled process no longer runs; the entry is gone only when the
    call has returned, with the process exited and its exit confirmed
    before; the entry is removed once by a call that returns and not at
    all by a call that has not. *)
Theorem destroy_kernel_order kernel proc d w :
  agents d !! id kernel = Some proc → is_Some (status_of proc w) →
  (status_of proc w = Some Exited →
   run kernel [Step; Step] (destroy_kernel d w)
   = Some (mkConfig (Done (Raise ProcessLookupError)) d w [])
   ∧ ∀ ls c,
       run kernel ls (destroy_kernel d w) = Some c →
       at_pc c ≠ Done (Ok ()) ∧ history c = []
       ∧ agents (driver c) !! id kernel = Some proc)
  ∧ (status_of proc w ≠ Some Exited →
     ∃ c, run kernel [Step; Step; Exits proc; Step; Step] (destroy_kernel d w)
          = Some c
          ∧ at_pc c = Done (Ok ())
          ∧ history c = teardown kernel proc)
  ∧ ∀ ls c,
      run kernel ls (destroy_kernel d w) = Some c →
      history c `prefix_of` teardown kernel proc
      ∧ (Signalled proc ∈ history c →
         status_of proc (outside c) ≠ Some Running)
      ∧ (agents (driver c) !! id kernel = None →
         at_pc c = Done (Ok ())
         ∧ history c = teardown kernel proc
         ∧ status_of proc (outside c) = Some Exited)
      ∧ (at_pc c = Done (Ok ()) →
         agents (driver c) !! id kernel = None ∧ removals kernel c = 1)
      ∧ (at_pc c ≠ Done (Ok ()) →
         agents (driver c) !! id kernel = Some proc ∧ removals kernel c = 0).
Proof.
  intros Ha Hproc. split; [|split].
  - intros Hex. split.
    + unfold destroy_kernel. simpl. rewrite Ha. simpl.
      by rewrite (terminate_exited _ _ Hex).
    + intros ls c Hrun.
      assert (gone_inv kernel proc d c) as (Hd & Hh & _ & Hpc).
      { apply (run_invariant (gone_inv kernel proc d) kernel
                 (λ l c1 c2, gone_inv_step kernel proc d l c1 c2 Ha)
                 ls (destroy_kernel d w) c); [|done].
        unfold gone_inv. simpl. eauto. }
      rewrite Hd. split; [|done].
      by destruct Hpc as [->|[->|[e ->]]].
  - intros Hne.
    destruct (teardown_completes kernel proc d w Ha Hproc Hne)
      as (w0 & _ & Hrun & _).
    eexists. split; [exact Hrun|]. done.
  - intros ls c Hrun.
    pose proof (teardown_inv_run kernel proc d w ls c Ha Hrun) as Hinv.
    unfold teardown_inv, teardown in Hinv. unfold removals, teardown.
    destruct (at_pc c) as [|p|p| |[[]|e]].
    + destruct Hinv as [-> ->].
      split; [by eexists|]. split; [by intros ?%elem_of_nil|].
      by repeat split.
    + destruct Hinv as (-> & -> & ->).
      split; [by eexists|]. split; [by intros ?%elem_of_nil|].
      by repeat split.
    + destruct Hinv as (-> & -> & -> & Hstop).
      split; [by eexists|]. by repeat split.
    + destruct Hinv as (-> & -> & Hst).
      split; [by eexists|]. split; [by rewrite Hst|]. by repeat split.
    + destruct Hinv as (-> & -> & Hst).
      split; [by exists []|]. split; [by rewrite Hst|].
      split; [done|]. split; [|done].
      intros _. split; [done|].
      rewrite !filter_cons, filter_nil. by repeat case_decide.
    + destruct Hinv as ([-> | [-> Hstop]] & ->).
      * split; [by eexists|]. split; [by intros ?%elem_of_nil|].
        by repeat split.
      * split; [by eexists|]. by repeat split.
Qed.

Lemma destroy_kernel_order_witness :
  run (mkKernel "local/u0" (mkInstance "i-0" "127.0.0.1" 0) None None)
    [Step; Step]
    (destroy_kernel (mkLocalDriver {[ "local/u0" := 7 ]})
       (mkWorld 1 {[ 7 := mkProcess [] Exited ]} 8))
  = Some (mkConfig (Done (Raise ProcessLookupError))
            (mkLocalDriver {[ "local/u0" := 7 ]})
            (mkWorld 1 {[ 7 := mkProcess [] Exited ]} 8) []).
Proof.
  assert (agents (mkLocalDriver {[ "local/u0" := 7 ]})
            !! id (mkKernel "local/u0" (mkInstance "i-0" "127.0.0.1" 0)
                     None None) = Some 7) as Ha by reflexivity.
  assert (is_Some (status_of 7 (mkWorld 1 {[ 7 := mkProcess [] Exited ]} 8)))
    as Hs by (eexists; reflexivity).
  destruct (destroy_kernel_order _ 7 _ _ Ha Hs) as (Hgone & _ & _).
  exact (proj1 (Hgone eq_refl)).
Defined.

End LocalTeardown.

(** ** Local driver: instances and kernels *)

Section LocalInstances.
Import LocalDriver.

Variable uuid4 : nat → string.

Implicit Types (d : t) (w : world) (cs : list call).

Lemma run_calls_ids cs d w :
  (∀ i j, uuid4 i = uuid4 j → i = j) →
  NoDup (run_calls uuid4 cs d w).1.1.*1
  ∧ (∀ inst_id, inst_id ∈ (run_calls uuid4 cs d w).1.1.*1 →
       ∃ i, draws w ≤ i ∧ inst_id = uuid4 i)
  ∧ Forall (λ r, r.2 = "127.0.0.1") (run_calls uuid4 cs d w).1.1
  ∧ length (run_calls uuid4 cs d w).1.1
    = length (filter (λ c, is_launch c = true) cs).
Proof.
  intros Hinj. revert d w.
  induction cs as [|c cs IH]; intros d w.
  - simpl. split; [constructor|]. split; [|done].
    intros inst_id Hin. by apply elem_of_nil in Hin.
  - destruct c as [|i|i p e]; simpl.
    + destruct (IH d (draw w)) as (Hnd & Hidx & Hip & Hlen).
      destruct (run_calls uuid4 cs d (draw w)) as [[rs d'] w']; simpl in *.
      split; [|split; [|split]].
      * constructor; [|done]. intros Hin.
        destruct (Hidx _ Hin) as (j & Hj & Heq).
        apply Hinj in Heq. lia.
      * intros inst_id [->|Hin]%elem_of_cons; [by eauto|].
        destruct (Hidx _ Hin) as (j & Hj & Heq). exists j. split; [lia|done].
      * by constructor.
      * by rewrite Hlen.
    + apply IH.
    + destruct (IH (create_kernel uuid4 d i p e w).1.2
                   (create_kernel uuid4 d i p e w).2)
        as (Hnd & Hidx & Hip & Hlen).
      destruct (create_kernel uuid4 d i p e w) as [[r d'] w'] eqn:Hck.
      simpl in *. split; [done|]. split; [|by rewrite filter_cons].
      intros inst_id Hin. destruct (Hidx _ Hin) as (j & Hj & Heq).
      exists j. split; [|done].
      unfold create_kernel in Hck. destruct e; simplify_eq/=; lia.
Qed.

(** C9: [launch_instance] of the local driver returns, whatever the state,
    the identifier drawn from [uuid4] and the address 127.0.0.1; it leaves
    the driver and the processes as they were.  In any sequence of calls the
    identifiers it has returned are pairwise different, given that
    [uuid4] never draws the same value twice. *)
Theorem launch_instance_fresh cs d w :
  (∀ i j, uuid4 i = uuid4 j → i = j) →
  launch_instance uuid4 d w
  = (Ok (uuid4 (draws w), "127.0.0.1"), d,
     {| draws := S (draws w); procs := procs w; next_proc := next_proc w |})
  ∧ NoDup (run_calls uuid4 cs d w).1.1.*1
  ∧ Forall (λ r, r.2 = "127.0.0.1") (run_calls uuid4 cs d w).1.1
  ∧ length (run_calls uuid4 cs d w).1.1
    = length (filter (λ c, is_launch c = true) cs).
Proof.
  intros Hinj. split; [done|].
  destruct (run_calls_ids cs d w Hinj) as (Hnd & _ & Hip & Hlen). done.
Qed.

(** C10: [destroy_instance] of the local driver returns normally for every
    identifier and changes neither the driver nor the world; a call of it
    put anywhere into a sequence of calls changes nothing of what the
    sequence returns and leaves behind. *)
Theorem destroy_instance_no_effect d inst_id w cs1 cs2 :
  destroy_instance d inst_id w = (Ok (), d, w)
  ∧ run_calls uuid4 (cs1 ++ DestroyInstance inst_id :: cs2) d w
    = run_calls uuid4 (cs1 ++ cs2) d w.
Proof.
  split; [done|]. revert d w.
  induction cs1 as [|c cs1 IH]; intros d w; [done|].
  destruct c as [|i|i p e]; simpl.
  - by rewrite IH.
  - apply IH.
  - destruct (create_kernel uuid4 d i p e w) as [[r d'] w']. apply IH.
Qed.

(** The local variant wires the agent socket to the address of the
    instance and the given port. *)
Lemma local_create_kernel_agent_sock d instance agent_port w container_id :
  ∃ kernel,
    BaseDriver.create_kernel uuid4 (Local d) instance agent_port None
      container_id w
    = Ok kernel
    ∧ agent_sock kernel = Some (tcp_address (ip instance) agent_port)
    ∧ id kernel = "local/" +:+ uuid4 (draws w).
Proof. by eexists. Qed.

Lemma local_create_kernel_spawn_error d instance agent_port w container_id e :
  BaseDriver.create_kernel uuid4 (Local d) instance agent_port (Some e)
    container_id w
  = Raise e.
Proof. done. Qed.

(** C8: [create_kernel] of the Docker variant raises [NameError] for the
    name [docker], which the module never imports, for every instance and
    port; it returns no kernel and so no agent socket address. *)
Theorem aws_create_kernel_name_error (aws : AWSDockerDriver.t) instance
    agent_port spawn_error container_id w :
  BaseDriver.create_kernel uuid4 (AWSDocker aws) instance agent_port
    spawn_error container_id w
  = Raise (NameError "docker").
Proof. reflexivity. Qed.

End LocalInstances.

Lemma launch_instance_fresh_witness :
  NoDup (LocalDriver.run_calls pretty
           [LocalDriver.LaunchInstance;
            LocalDriver.CreateKernel (mkInstance "0" "127.0.0.1" 0) 5003 None;
            LocalDriver.LaunchInstance]
           LocalDriver.new (LocalDriver.mkWorld 0 ∅ 0)).1.1.*1.
Proof.
  refine (proj1 (proj2 (launch_instance_fresh pretty _ _ _ _))).
  intros i j Hij. exact (pretty_nat_inj i j Hij).
Defined.

Example local_agent_sock_5003 :
  tcp_address "127.0.0.1" 5003 = "tcp://127.0.0.1:5003".
Proof. reflexivity. Qed.

(** ** The factory *)

(** C2, as the code has it: [create_driver] constructs a driver for the
    names [local] and [aws_docker], the keys of [_driver_type_to_class],
    and raises [KeyError] with the name for every other name. *)
Theorem create_driver_recognized name :
  create_driver name
  = if bool_decide (name = "local") then Ok (Local LocalDriver.new)
    else if bool_decide (name = "aws_docker")
         then Ok (AWSDocker AWSDockerDriver.new)
         else Raise (KeyError name).
Proof.
  unfold create_driver, _driver_type_to_class.
  rewrite lookup_insert. repeat case_bool_decide; subst.
  - by rewrite decide_True.
  - rewrite decide_False by done. by rewrite lookup_singleton_eq.
  - rewrite decide_False by done. by rewrite lookup_singleton_ne.
Qed.

(** [cloud] is not a recognized name, so the names for which a driver is
    returned are not [local] and [cloud]. *)
Lemma create_driver_cloud_unrecognized :
  ¬ (∀ name, is_ok (create_driver name) = true
             ↔ name = "local" ∨ name = "cloud").
Proof.
  intros Hall. destruct (Hall "cloud") as [_ Hcloud].
  specialize (Hcloud (or_intror eq_refl)).
  vm_compute in Hcloud. discriminate Hcloud.
Qed.

Example create_driver_cloud : create_driver "cloud" = Raise (KeyError "cloud").
Proof. reflexivity. Qed.

Example create_driver_aws_docker :
  create_driver "aws_docker" = Ok (AWSDocker AWSDockerDriver.new).
Proof. reflexivity. Qed.


(** * Further properties *)

(** ** Event bus: sequences of registrations and dispatches *)

Section BusRuns.
Import Events Bus.

Variable call_error :
  callback → list value → list (string * value) → option exn.

Implicit Types (es : EventServer) (h : callback) (ops : list op).

Lemma run_ops_app ops1 ops2 es :
  run_ops call_error (ops1 ++ ops2) es
  = run_ops call_error ops2 (run_ops call_error ops1 es).
Proof. unfold run_ops. apply foldl_app. Qed.

Lemma run_op_handlers o es e :
  handlers_of (run_op call_error o es) e
  = handlers_of es e ++ registered e [o].
Proof.
  destruct o as [e' cb|e' args kwargs]; simpl.
  - destruct (callable cb) eqn:Hc.
    + destruct (add_handler_ok es e' cb Hc) as (es' & -> & Hsame & Hother & _).
      case_bool_decide as He; simpl.
      * subst e'. by rewrite Hsame.
      * rewrite Hother by done. by rewrite app_nil_r.
    + rewrite add_handler_not_callable by done.
      by rewrite andb_false_r, app_nil_r.
  - by rewrite local_dispatch_handlers, app_nil_r.
Qed.

Lemma registered_app e ops1 ops2 :
  registered e (ops1 ++ ops2) = registered e ops1 ++ registered e ops2.
Proof. unfold registered. apply omap_app. Qed.

Lemma run_ops_handlers ops es e :
  handlers_of (run_ops call_error ops es) e
  = handlers_of es e ++ registered e ops.
Proof.
  revert es. induction ops as [|o ops IH]; intros es.
  - by rewrite app_nil_r.
  - change (run_ops call_error (o :: ops) es)
      with (run_ops call_error ops (run_op call_error o es)).
    rewrite IH, run_op_handlers, <- app_assoc.
    by rewrite <- registered_app.
Qed.

(** The handlers under an event name are those it had, followed by the
    callables registered under it since, in the order of registration;
    dispatches, whether they return or raise, registrations under other
    names and refused registrations change nothing of it. *)
Theorem handlers_in_registration_order ops es e :
  handlers_of (run_ops call_error ops es) e
  = handlers_of es e ++ registered e ops.
Proof. apply run_ops_handlers. Qed.

(** A dispatch goes through the handlers registered under its name so
    far, in the order of registration, and schedules them one by one,
    each with the arguments of the dispatch, after what is queued.  It
    stops at the first coroutine function that raises when it is called
    with these arguments: the dispatch then raises that exception, and
    neither this handler nor those after it are scheduled.  When no
    handler raises, the dispatch returns with every handler scheduled. *)
Theorem dispatch_schedules_registered ops es e args kwargs :
  let before := run_ops call_error ops es in
  let r := local_dispatch call_error before e args kwargs in
  ∃ hs1 hs2,
    handlers_of es e ++ registered e ops = hs1 ++ hs2
    ∧ Forall (λ h, call_outcome call_error h args kwargs = None) hs1
    ∧ loop_queue (run_ops call_error (ops ++ [Dispatch e args kwargs]) es)
      = loop_queue before ++ map (λ h, schedule h args kwargs) hs1
    ∧ (∀ h, times_scheduled h args (map (λ h, schedule h args kwargs) hs1)
            = length (filter (λ h', h' = h) hs1))
    ∧ match hs2 with
      | [] => r.2 = Ok ()
      | h :: _ =>
          ∃ err, call_outcome call_error h args kwargs = Some err
                 ∧ r.2 = Raise err
      end.
Proof.
  intros before r. subst r.
  rewrite run_ops_app. fold before. simpl.
  destruct (local_dispatch_loop call_error before e args kwargs) as [-> ->].
  destruct (dispatch_loop_split call_error (handlers_of before e) args kwargs
              (loop_queue before)) as (hs1 & hs2 & Hhs & Hall & Hq & Hr).
  exists hs1, hs2. subst before. rewrite run_ops_handlers in Hhs.
  split; [done|]. split; [done|]. split; [done|].
  split; [intros h; apply times_scheduled_map|done].
Qed.

Lemma run_op_queue o es :
  ∃ q, loop_queue (run_op call_error o es) = loop_queue es ++ q
       ∧ match o with
         | Register _ _ => q = []
         | Dispatch e args kwargs =>
             ∃ hs1 hs2, handlers_of es e = hs1 ++ hs2
                        ∧ q = map (λ h, schedule h args kwargs) hs1
         end.
Proof.
  destruct o as [e cb|e args kwargs]; simpl.
  - exists []. rewrite app_nil_r. split; [|done].
    destruct (callable cb) eqn:Hc.
    + by destruct (add_handler_ok es e cb Hc) as (es' & -> & _ & _ & ->).
    + by rewrite add_handler_not_callable.
  - destruct (local_dispatch_loop call_error es e args kwargs) as [-> _].
    destruct (dispatch_loop_split call_error (handlers_of es e) args kwargs
                (loop_queue es)) as (hs1 & hs2 & Hhs & _ & Hq & _).
    eexists. split; [exact Hq|]. by exists hs1, hs2.
Qed.

Lemma well_scheduled_schedule h args kwargs :
  callable h = true → well_scheduled (schedule h args kwargs) = true.
Proof.
  unfold callable, schedule, is_coroutine. destruct h as [n []]; simpl; done.
Qed.

(** On a bus that starts empty, whatever is registered and dispatched,
    only callables get into the table and only callables are scheduled: a
    coroutine function through [ensure_future], any other callable through
    [call_soon]. *)
Theorem only_callables_scheduled ops :
  (∀ e h, h ∈ handlers_of (run_ops call_error ops init) e → callable h = true)
  ∧ forallb well_scheduled (loop_queue (run_ops call_error ops init)) = true.
Proof.
  assert (∀ ops' e h,
            h ∈ handlers_of (run_ops call_error ops' init) e →
            callable h = true) as Hcall.
  { intros ops' e h. rewrite run_ops_handlers.
    unfold handlers_of at 1, init. simpl. rewrite lookup_empty. simpl.
    unfold registered. rewrite list_elem_of_omap.
    intros ([e' cb|] & _ & Ho); [|done].
    destruct (bool_decide (e' = e)); simpl in Ho; [|done].
    destruct (callable cb) eqn:Hc; by simplify_eq. }
  split; [apply Hcall|].
  induction ops as [|o ops IH] using rev_ind; [done|].
  rewrite run_ops_app. simpl.
  destruct (run_op_queue o (run_ops call_error ops init)) as (q & -> & Hq).
  rewrite forallb_app, IH. simpl.
  destruct o as [e cb|e args kwargs]; [by subst q|].
  destruct Hq as (hs1 & hs2 & Hhs & ->).
  apply forallb_forall. intros s [h [<- Hh]]%in_map_iff.
  apply well_scheduled_schedule, (Hcall ops e).
  rewrite Hhs, elem_of_app. left. by apply list_elem_of_In.
Qed.

Lemma defaultdict_get_dom (d : gmap string (list callback)) key :
  dom (defaultdict_get d key).2 = {[key]} ∪ dom d.
Proof.
  unfold defaultdict_get. destruct (d !! key) eqn:Hd; simpl.
  - apply (elem_of_dom_2 (D := gset string)) in Hd. set_solver.
  - by rewrite dom_insert_L.
Qed.

Lemma run_op_dom o es :
  dom (handlers (run_op call_error o es))
  = dom (handlers es) ∪ list_to_set (names [o]).
Proof.
  destruct o as [e cb|e args kwargs]; simpl.
  - unfold add_handler. destruct (callable cb); simpl; [|set_solver].
    pose proof (defaultdict_get_dom (handlers es) e) as Hdom.
    destruct (defaultdict_get (handlers es) e) as [l d]; simpl in *.
    rewrite dom_insert_L, Hdom. set_solver.
  - unfold local_dispatch.
    pose proof (defaultdict_get_dom (handlers es) e) as Hdom.
    destruct (defaultdict_get (handlers es) e) as [l d]; simpl in *.
    destruct (dispatch_loop call_error l args kwargs (loop_queue es)).
    simpl. rewrite Hdom. set_solver.
Qed.

(** The keys of the handler table are never removed, and they grow by
    every name that is dispatched, registered or not, besides the names
    handlers are registered under: the [defaultdict] keeps an empty list for
    a name that was only ever dispatched. *)
Theorem dispatched_names_become_keys ops es :
  dom (handlers (run_ops call_error ops es))
  = dom (handlers es) ∪ list_to_set (names ops).
Proof.
  revert es. induction ops as [|o ops IH]; intros es.
  - simpl. set_solver.
  - change (run_ops call_error (o :: ops) es)
      with (run_ops call_error ops (run_op call_error o es)).
    rewrite IH, run_op_dom.
    change (o :: ops) with ([o] ++ ops).
    unfold names. rewrite omap_app, list_to_set_app_L. set_solver.
Qed.

End BusRuns.

(** ** Lease-expiry monitor: whole runs *)

Section MonitorRuns.
Import Events Monitor MonitorRun.

Variable call_error :
  callback → list value → list (string * value) → option exn.

Implicit Types (st : mstate) (pfx key channel : string) (es : EventServer).

Lemma after_startswith p s :
  startswith p s = true → s = p +:+ after (String.length p) s.
Proof.
  unfold startswith. revert s.
  induction p as [|a p IH]; intros s H; [done|].
  destruct s as [|b s]; [done|].
  cbn [String.prefix] in H.
  destruct (Ascii.ascii_dec a b) as [<-|]; [|done].
  change (String a s = String a (p +:+ after (String.length p) s)).
  f_equal. by apply IH.
Qed.

Lemma after_prefix key :
  startswith "shadow:" key = true → key = "shadow:" +:+ after 7 key.
Proof. apply after_startswith. Qed.

(** What the body reads off a message of an expiry channel. *)
Lemma expired_lease_expired pfx key :
  plain pfx = true →
  expired_lease (pfx +:+ ":expired") key = Ok (lease_of key).
Proof.
  intros Hplain. unfold lease_of.
  destruct (startswith "shadow:" key) eqn:Hkey.
  - rewrite (after_prefix key Hkey) at 1.
    by apply expired_lease_shadow.
  - unfold expired_lease.
    pose proof (expired_channel_name pfx Hplain) as Hname.
    destruct (decode_ascii (pfx +:+ ":expired")) as [d|e]; [|done].
    simpl in Hname |- *. rewrite Hname. simpl. by rewrite Hkey.
Qed.

(** What the body does with a message of an expiry channel. *)
Lemma on_message_expired pfx key st :
  plain pfx = true →
  on_message call_error (pfx +:+ ":expired") key st
  = match lease_of key with
    | Some inst_id =>
        ({| trace := trace st
                     ++ [LocalDispatch "instance_terminated"
                           [VStr "agent-lost"; VStr inst_id]];
            bus := (local_dispatch call_error (bus st) "instance_terminated"
                      [VStr "agent-lost"; VStr inst_id] []).1 |},
         (local_dispatch call_error (bus st) "instance_terminated"
            [VStr "agent-lost"; VStr inst_id] []).2)
    | None => (st, Ok ())
    end.
Proof.
  intros Hplain. unfold on_message.
  rewrite expired_lease_expired by done. by destruct (lease_of key).
Qed.

Lemma leases_accepted_dispatch es e args kwargs :
  leases_accepted call_error es →
  leases_accepted call_error (local_dispatch call_error es e args kwargs).1.
Proof.
  apply leases_accepted_handlers. intros e'. apply local_dispatch_handlers.
Qed.

Lemma while_true_expired pfx keys more st :
  plain pfx = true → leases_accepted call_error (bus st) →
  ∃ t,
    while_true call_error (map (Got (pfx +:+ ":expired")) keys ++ more) st
    = while_true call_error more
        {| trace := trace st ++ t;
           bus := dispatch_leases call_error (omap lease_of keys) (bus st) |}
    ∧ dispatched t = map lease_event (omap lease_of keys)
    ∧ forallb in_loop t = true.
Proof.
  intros Hplain. revert st.
  induction keys as [|key keys IH]; intros st Hacc.
  - exists []. simpl. rewrite app_nil_r. by destruct st.
  - cbn [map app while_true].
    rewrite (on_message_expired pfx key (call Get st) Hplain).
    change (omap lease_of (key :: keys))
      with (match lease_of key with
            | Some y => y :: omap lease_of keys
            | None => omap lease_of keys
            end).
    destruct (lease_of key) as [inst_id|].
    + destruct (local_dispatch_queue call_error (bus (call Get st))
                  "instance_terminated" [VStr "agent-lost"; VStr inst_id] []
                  (Hacc inst_id)) as [_ ->].
      destruct (IH {| trace := trace (call Get st)
                         ++ [LocalDispatch "instance_terminated"
                               [VStr "agent-lost"; VStr inst_id]];
                      bus := (local_dispatch call_error (bus (call Get st))
                                "instance_terminated"
                                [VStr "agent-lost"; VStr inst_id] []).1 |})
        as (t & -> & Hd & Hl).
      { by apply leases_accepted_dispatch. }
      exists (Get :: LocalDispatch "instance_terminated"
                       [VStr "agent-lost"; VStr inst_id] :: t).
      simpl. rewrite <- !app_assoc. simpl.
      split; [done|]. split; [|done].
      unfold dispatched in *. simpl. by rewrite Hd.
    + destruct (IH (call Get st) Hacc) as (t & -> & Hd & Hl).
      exists (Get :: t). simpl. rewrite <- !app_assoc. simpl.
      split; [done|]. split; [|done].
      unfold dispatched in *. by simpl.
Qed.

Lemma dispatch_leases_queue inst_ids es :
  leases_accepted call_error es →
  loop_queue (dispatch_leases call_error inst_ids es)
  = loop_queue es
    ++ concat (map (λ inst_id,
                      map (λ h, schedule h [VStr "agent-lost"; VStr inst_id] [])
                          (handlers_of es "instance_terminated"))
                   inst_ids).
Proof.
  revert es. induction inst_ids as [|inst_id inst_ids IH]; intros es Hacc;
    simpl.
  - by rewrite app_nil_r.
  - unfold dispatch_leases in *. simpl.
    rewrite IH by by apply leases_accepted_dispatch.
    destruct (local_dispatch_queue call_error es "instance_terminated"
                [VStr "agent-lost"; VStr inst_id] [] (Hacc inst_id))
      as [-> _].
    rewrite <- app_assoc. do 2 f_equal.
    f_equal. apply map_ext. intros id'.
    by rewrite local_dispatch_handlers.
Qed.

Lemma dispatched_cleanup_calls db ans : dispatched (cleanup_calls db ans) = [].
Proof. unfold cleanup_calls. by destruct ans as [[?|] [?|] ?]. Qed.

Lemma monitor_expired_run db ans pfx keys es :
  plain pfx = true → leases_accepted call_error es →
  dispatched
    (trace (monitor_redis_events db call_error ans
              (map (Got (pfx +:+ ":expired")) keys ++ [GotNone]) es).1)
  = map lease_event (omap lease_of keys)
  ∧ bus (monitor_redis_events db call_error ans
           (map (Got (pfx +:+ ":expired")) keys ++ [GotNone]) es).1
    = dispatch_leases call_error (omap lease_of keys) es
  ∧ (monitor_redis_events db call_error ans
       (map (Got (pfx +:+ ":expired")) keys ++ [GotNone]) es).2
    = after_cleanup ans Normal.
Proof.
  intros Hplain Hacc.
  destruct (while_true_expired pfx keys [GotNone]
              (setup db {| trace := []; bus := es |}) Hplain Hacc)
    as (t & Hw & Hd & _).
  rewrite monitor_exit; rewrite Hw; [|done].
  simpl. rewrite !dispatched_app, Hd, dispatched_cleanup_calls. simpl.
  by rewrite !app_nil_r.
Qed.

(** Fed with expiry notifications and then a closed channel, and with
    handlers that take the lease events, the monitor dispatches one
    [instance_terminated] event per key that starts with [shadow:], with
    what follows [shadow:] as the instance, in the order of arrival and
    without merging repeated leases; it dispatches nothing for the other
    keys.  It then returns normally if the calls of the [finally] clause
    return, and raises the exception of the first of them that raises
    otherwise. *)
Theorem monitor_reports_each_lease db ans pfx keys es :
  plain pfx = true → leases_accepted call_error es →
  dispatched
    (trace (monitor_redis_events db call_error ans
              (map (Got (pfx +:+ ":expired")) keys ++ [GotNone]) es).1)
  = map lease_event (omap lease_of keys)
  ∧ (monitor_redis_events db call_error ans
       (map (Got (pfx +:+ ":expired")) keys ++ [GotNone]) es).2
    = match cleanup_error ans with
      | Some e => Exc e
      | None => Normal
      end.
Proof.
  intros Hplain Hacc.
  destruct (monitor_expired_run db ans pfx keys es Hplain Hacc)
    as (Hd & _ & Hn).
  by split.
Qed.

(** With handlers that take the lease events, every expired lease
    reaches every handler registered for [instance_terminated]: per
    lease, in the order of arrival, the monitor has each handler scheduled
    once, in registration order, with the arguments ["agent-lost"] and the
    instance.  With no handler registered the leases are dropped without
    a trace in the queue. *)
Theorem leases_reach_registered_handlers db ans pfx keys es :
  plain pfx = true → leases_accepted call_error es →
  loop_queue
    (bus (monitor_redis_events db call_error ans
            (map (Got (pfx +:+ ":expired")) keys ++ [GotNone]) es).1)
  = loop_queue es
    ++ concat (map (λ inst_id,
                      map (λ h, schedule h [VStr "agent-lost"; VStr inst_id] [])
                          (handlers_of es "instance_terminated"))
                   (omap lease_of keys)).
Proof.
  intros Hplain Hacc.
  destruct (monitor_expired_run db ans pfx keys es Hplain Hacc)
    as (_ & -> & _).
  by apply dispatch_leases_queue.
Qed.

Lemma split_free sep m s : free_of sep s = true → split sep m s = [s].
Proof.
  induction s as [|c s IH]; simpl; [done|].
  intros [Hc Hs%IH]%andb_prop. apply bool_decide_eq_true in Hc.
  rewrite decide_False by done. by rewrite Hs.
Qed.

(** A notification of another key event than [expired] (the next field
    of the channel name after the first colon) is passed over, whatever the
    key, a [shadow:] key too. *)
Theorem other_key_events_ignored pfx evname key st :
  plain pfx = true → plain evname = true → evname ≠ "expired" →
  on_message call_error (pfx +:+ ":" +:+ evname) key st = (st, Ok ()).
Proof.
  intros [Hascii Hfree]%andb_prop [Hascii' Hfree']%andb_prop Hne.
  unfold on_message, expired_lease, decode_ascii.
  change (pfx +:+ ":" +:+ evname) with (pfx +:+ String ":" evname).
  rewrite ascii_only_app. simpl. rewrite Hascii, Hascii'. simpl.
  rewrite split_first by done.
  rewrite (split_free ":" None evname) by done. simpl.
  by rewrite bool_decide_eq_false_2.
Qed.

(** The coroutine is suspended exactly when its loop is. *)
Lemma monitor_pending_loop db ans inputs es :
  (monitor_redis_events db call_error ans inputs es).2 = Pending →
  (while_true call_error inputs
     (setup db {| trace := []; bus := es |})).2 = Pending.
Proof.
  intros Hp.
  destruct (decide ((while_true call_error inputs
                       (setup db {| trace := []; bus := es |})).2 = Pending))
    as [|Hne]; [done|].
  rewrite monitor_exit in Hp by done. simpl in Hp.
  apply except_cancelled_not_pending in Hne.
  unfold after_cleanup in Hp. by destruct (cleanup_error ans).
Qed.

(** The run of a monitor that waits after [pre] and then gets an input
    on which the loop is left. *)
Lemma monitor_exit_run db ans pre r post es :
  (monitor_redis_events db call_error ans pre es).2 = Pending →
  leaves_loop r = true →
  monitor_redis_events db call_error ans (pre ++ r :: post) es
  = ({| trace := trace (monitor_redis_events db call_error ans pre es).1
                 ++ cleanup_calls db ans;
        bus := bus (monitor_redis_events db call_error ans pre es).1 |},
     after_cleanup ans (except_cancelled (exit_of r))).
Proof.
  intros Hp%monitor_pending_loop Hr.
  rewrite (monitor_pending _ db ans pre es Hp). cbn [fst snd].
  pose proof (while_true_exit call_error pre r post
                (setup db {| trace := []; bus := es |}) Hp Hr) as Hw.
  rewrite monitor_exit; rewrite Hw; [done|].
  by apply exit_of_not_pending.
Qed.

(** When a monitor that waits receives an input on which the loop is
    left before any dispatch (a closed channel, an exception in [get], a
    message it cannot read, a [shadow:] key on a malformed channel too),
    it adds to what it had done the calls of the [finally] clause and
    nothing else: [unsubscribe], then [close] and [wait_closed] as far as
    the call before returned.  That input puts no event on the bus, and
    what comes after it is never received. *)
Theorem exit_adds_only_cleanup db ans pre r post es :
  (monitor_redis_events db call_error ans pre es).2 = Pending →
  leaves_loop r = true →
  trace (monitor_redis_events db call_error ans (pre ++ r :: post) es).1
  = trace (monitor_redis_events db call_error ans pre es).1
    ++ cleanup_calls db ans
  ∧ bus (monitor_redis_events db call_error ans (pre ++ r :: post) es).1
    = bus (monitor_redis_events db call_error ans pre es).1
  ∧ cleanup_calls db ans
    `prefix_of` [Unsubscribe (chprefix db); Close; WaitClosed]
  ∧ (unsubscribe_raises ans = None ∧ close_raises ans = None ↔
     cleanup_calls db ans = [Unsubscribe (chprefix db); Close; WaitClosed]).
Proof.
  intros Hp Hr. rewrite monitor_exit_run by done. simpl.
  split; [done|]. split; [done|].
  unfold cleanup_calls.
  destruct ans as [[u|] [c|] wc]; simpl.
  - split; [by exists [Close; WaitClosed]|]. by split; [intros []|].
  - split; [by exists [Close; WaitClosed]|]. by split; [intros []|].
  - split; [by exists [WaitClosed]|]. by split; [intros []|].
  - split; [by exists []|]. done.
Qed.

(** A message whose channel name has no colon ends a monitor that
    waits: the body raises [IndexError] ([UnicodeDecodeError] when the
    name is not ASCII), no [except] clause takes it, and it leaves the
    coroutine after the [finally] clause, unless a call of that clause
    raises, whose exception then leaves the coroutine. *)
Theorem malformed_channel_stops_monitor db ans pre channel key post es :
  (monitor_redis_events db call_error ans pre es).2 = Pending →
  free_of ":" channel = true →
  (monitor_redis_events db call_error ans (pre ++ Got channel key :: post)
     es).2
  = match cleanup_error ans with
    | Some e => Exc e
    | None => Exc (if ascii_only channel then IndexError
                   else UnicodeDecodeError)
    end.
Proof.
  intros Hp Hfree.
  assert (expired_lease channel key
          = Raise (if ascii_only channel then IndexError
                   else UnicodeDecodeError)) as Hraise.
  { unfold expired_lease, decode_ascii.
    destruct (ascii_only channel); [|done]. simpl.
    by rewrite (split_free ":" None channel). }
  assert (leaves_loop (Got channel key) = true) as Hr.
  { simpl. by rewrite Hraise. }
  rewrite monitor_exit_run by done. simpl. rewrite Hraise.
  unfold after_cleanup.
  destruct (cleanup_error ans); [done|]. by destruct (ascii_only channel).
Qed.

(** A handler of [instance_terminated] that raises when it is called
    with a lease event ends a monitor that waits: the exception of the
    dispatch leaves the loop, no later input is received, and after the
    [finally] clause it leaves the coroutine (or the exception of a call
    of that clause does). *)
Theorem raising_handler_stops_monitor db ans pfx pre inst_id post es e :
  plain pfx = true →
  (monitor_redis_events db call_error ans pre es).2 = Pending →
  (local_dispatch call_error
     (bus (monitor_redis_events db call_error ans pre es).1)
     "instance_terminated" [VStr "agent-lost"; VStr inst_id] []).2
  = Raise e →
  let run :=
    monitor_redis_events db call_error ans
      (pre ++ Got (pfx +:+ ":expired") ("shadow:" +:+ inst_id) :: post) es in
  trace run.1
  = trace (monitor_redis_events db call_error ans pre es).1
    ++ [LocalDispatch "instance_terminated" [VStr "agent-lost"; VStr inst_id]]
    ++ cleanup_calls db ans
  ∧ run.2 = match cleanup_error ans with
            | Some e' => Exc e'
            | None => except_cancelled (Exc e)
            end.
Proof.
  intros Hplain Hp%monitor_pending_loop He run. subst run.
  rewrite (monitor_pending _ db ans pre es Hp) in He |- *.
  cbn [fst snd] in He |- *.
  assert (∀ st,
    (while_true call_error pre st).2 = Pending →
    (local_dispatch call_error (bus (while_true call_error pre st).1)
       "instance_terminated" [VStr "agent-lost"; VStr inst_id] []).2
    = Raise e →
    while_true call_error
      (pre ++ Got (pfx +:+ ":expired") ("shadow:" +:+ inst_id) :: post) st
    = ({| trace := trace (while_true call_error pre st).1
                   ++ [LocalDispatch "instance_terminated"
                         [VStr "agent-lost"; VStr inst_id]];
          bus := (local_dispatch call_error
                    (bus (while_true call_error pre st).1)
                    "instance_terminated"
                    [VStr "agent-lost"; VStr inst_id] []).1 |},
       Exc e)) as Hloop.
  { clear Hp He. induction pre as [|i pre IH]; intros st Hp He; simpl in *.
    - unfold on_message. rewrite expired_lease_shadow by done.
      simpl. by rewrite He.
    - destruct i as [channel key| |err]; [|done..].
      destruct (on_message call_error channel key (call Get st))
        as [st' [[]|err]]; [|done].
      by apply IH. }
  rewrite monitor_exit; rewrite (Hloop _ Hp He); [|done].
  simpl. rewrite <- app_assoc. split; [done|].
  unfold after_cleanup. done.
Qed.

Lemma monitor_from_setup_returns db ans inputs es :
  monitor_from_setup db call_error None None None ans inputs es
  = monitor_redis_events db call_error ans inputs es.
Proof. reflexivity. Qed.

(** When one of the three awaits before the [try] statement raises
    ([create_redis], [config_set], [psubscribe]), the exception leaves the
    coroutine as it is, a cancellation too, nothing is received, and none of
    [unsubscribe], [close] and [wait_closed] is called: a connection that
    [create_redis] had returned stays open. *)
Theorem setup_failure_skips_cleanup db create_redis config_set psubscribe e
    ans inputs es :
  first_raised create_redis config_set psubscribe = Some e →
  (monitor_from_setup db call_error create_redis config_set psubscribe
     ans inputs es).2
  = Exc e
  ∧ forallb (λ a, negb (releases a) && negb (in_loop a))
      (trace (monitor_from_setup db call_error create_redis config_set
                psubscribe ans inputs es).1)
    = true
  ∧ (create_redis = None →
     CreateRedis
     ∈ trace (monitor_from_setup db call_error create_redis config_set
                psubscribe ans inputs es).1)
  ∧ bus (monitor_from_setup db call_error create_redis config_set psubscribe
           ans inputs es).1
    = es.
Proof.
  unfold first_raised, monitor_from_setup.
  destruct create_redis as [e1|]; [intros [= ->]; by repeat split|].
  destruct config_set as [e2|].
  { intros [= ->]. repeat split; [done..|]. intros _. set_solver. }
  destruct psubscribe as [e3|]; [|done].
  intros [= ->]. repeat split; [done..|]. intros _. set_solver.
Qed.

End MonitorRuns.

(** ** Local driver: what the registry keeps *)

Section LocalRuns.
Import LocalDriver LocalRun.

Variable uuid4 : nat → string.

Implicit Types (d : t) (w : world) (c : config) (kernel : Kernel).

Lemma procs_set_status q s w p :
  is_Some (procs (set_status q s w) !! p) ↔ is_Some (procs w !! p).
Proof.
  unfold set_status; simpl. destruct (decide (q = p)) as [->|Hne].
  - rewrite lookup_alter_eq. by rewrite fmap_is_Some.
  - by rewrite lookup_alter_ne.
Qed.

(** A [terminate] that returns leaves the processes of the world in
    place. *)
Lemma procs_terminate q w w' p :
  terminate q w = Ok w' →
  (is_Some (procs w' !! p) ↔ is_Some (procs w !! p))
  ∧ next_proc w' = next_proc w ∧ draws w' = draws w.
Proof.
  unfold terminate. intros Ht.
  destruct (status_of q w) as [[]|]; simplify_eq/=; try done.
  split; [apply procs_set_status|done].
Qed.

Lemma sound_new w : procs w = ∅ → sound uuid4 new w.
Proof.
  intros Hw. unfold sound, new. simpl. rewrite Hw.
  repeat split; intros *; rewrite ?lookup_empty;
    try done; by intros [? ?].
Qed.

Lemma sound_world d w w' :
  (∀ p, is_Some (procs w' !! p) ↔ is_Some (procs w !! p)) →
  next_proc w' = next_proc w → draws w ≤ draws w' →
  sound uuid4 d w → sound uuid4 d w'.
Proof.
  intros Hp Hn Hd (Ha & Hb & Hc & Hk). repeat split.
  - intros k p Hkp. apply Hp. by eapply Ha.
  - intros p Hpp. rewrite Hn. by apply Hb, Hp.
  - done.
  - intros k Hkk. destruct (Hk k Hkk) as (i & Hi & ->).
    exists i. split; [lia|done].
Qed.

Lemma sound_create_kernel d w instance agent_port spawn_error :
  sound uuid4 d w →
  sound uuid4 (create_kernel uuid4 d instance agent_port spawn_error w).1.2
              (create_kernel uuid4 d instance agent_port spawn_error w).2.
Proof.
  intros Hs. unfold create_kernel.
  destruct spawn_error as [e|]; simpl.
  { eapply sound_world; [| |..|exact Hs]; simpl; [done|done|lia]. }
  destruct Hs as (Ha & Hb & Hc & Hk). repeat split; simpl.
  - intros k p. rewrite lookup_insert. case_decide.
    + intros [= <-]. rewrite lookup_insert_eq. by eexists.
    + intros Hkp. destruct (Ha k p Hkp) as [x Hx].
      rewrite lookup_insert_ne; [by eexists|].
      intros <-. assert (next_proc w < next_proc w); [|lia].
      apply Hb. by eexists.
  - intros p. rewrite lookup_insert. case_decide; [subst; lia|].
    intros Hp. specialize (Hb p Hp). lia.
  - intros k1 k2 p. rewrite !lookup_insert.
    repeat case_decide; simplify_eq; try done.
    + intros [= <-] H2. destruct (Ha _ _ H2) as [x Hx].
      assert (next_proc w < next_proc w); [|lia]. apply Hb. by eexists.
    + intros H1 [= <-]. destruct (Ha _ _ H1) as [x Hx].
      assert (next_proc w < next_proc w); [|lia]. apply Hb. by eexists.
    + apply Hc.
  - intros k. rewrite lookup_insert. case_decide.
    + intros _. exists (draws w). split; [lia|done].
    + intros Hkk. destruct (Hk k Hkk) as (i & Hi & ->).
      exists i. split; [lia|done].
Qed.

Lemma sound_delete d w k :
  sound uuid4 d w → sound uuid4 {| agents := delete k (agents d) |} w.
Proof.
  intros (Ha & Hb & Hc & Hk). repeat split; simpl.
  - intros k' p [_ Hkp]%lookup_delete_Some. by eapply Ha.
  - done.
  - intros k1 k2 p [_ H1]%lookup_delete_Some [_ H2]%lookup_delete_Some.
    by eapply Hc.
  - intros k' [p [_ Hkp]%lookup_delete_Some]. apply Hk. by eexists.
Qed.

Lemma sound_step kernel l c c' :
  sound uuid4 (driver c) (outside c) → step kernel l c = Some c' →
  sound uuid4 (driver c') (outside c').
Proof.
  intros Hs Hstep. unfold step in Hstep.
  destruct l as [|e|q].
  - destruct (at_pc c) as [|p|p| |r].
    + by case_match; simplify_eq/=.
    + destruct (terminate p (outside c)) as [w'|e] eqn:Ht; simplify_eq/=;
        [|done].
      eapply sound_world; [| | |exact Hs].
      * intros q. by apply (procs_terminate p (outside c) w' q).
      * by apply (procs_terminate p (outside c) w' 0).
      * destruct (procs_terminate p (outside c) w' 0 Ht) as (_ & _ & ->). lia.
    + by repeat case_match; simplify_eq/=.
    + case_match; simplify_eq/=; [by apply sound_delete|done].
    + done.
  - by destruct (at_pc c); simplify_eq/=.
  - case_match; simplify_eq/=.
    eapply sound_world; [| | |exact Hs]; simpl; [|done|lia].
    intros proc. apply procs_set_status.
Qed.

Lemma reachable_sound d w : reachable uuid4 d w → sound uuid4 d w.
Proof.
  induction 1 as [w Hw|d w _ IH|d w i _ IH|d w i p e _ IH|k l c c' _ IH Hstep].
  - by apply sound_new.
  - eapply sound_world; [| | |exact IH]; simpl; [done|done|lia].
  - done.
  - by apply sound_create_kernel.
  - by eapply sound_step.
Qed.

Lemma status_of_is_Some p w : is_Some (status_of p w) ↔ is_Some (procs w !! p).
Proof. unfold status_of. by rewrite fmap_is_Some. Qed.

Lemma startswith_app p s : Monitor.startswith p (p +:+ s) = true.
Proof.
  unfold Monitor.startswith. induction p as [|a p IH]; [by destruct s|].
  change (String a p +:+ s) with (String a (p +:+ s)).
  cbn [String.prefix]. by destruct (Ascii.ascii_dec a a).
Qed.

Lemma string_app_inj p a b : p +:+ a = p +:+ b → a = b.
Proof.
  induction p as [|x p IH]; [done|].
  change (String x (p +:+ a) = String x (p +:+ b) → a = b).
  intros [= H]. by apply IH.
Qed.

(** Whatever calls were made on a local driver, and wherever its
    [destroy_kernel] calls stand, every handle in the registry is a
    process of the world, no process is registered for two kernels, and
    every key of the registry starts with [local/]. *)
Theorem registry_holds_spawned_processes d w :
  reachable uuid4 d w →
  (∀ k p, agents d !! k = Some p → is_Some (status_of p w))
  ∧ (∀ k1 k2 p,
       agents d !! k1 = Some p → agents d !! k2 = Some p → k1 = k2)
  ∧ (∀ k, is_Some (agents d !! k) → Monitor.startswith "local/" k = true).
Proof.
  intros (Ha & _ & Hc & Hk)%reachable_sound. repeat split.
  - intros k p Hkp. apply status_of_is_Some. by eapply Ha.
  - done.
  - intros k Hkk. destruct (Hk k Hkk) as (i & _ & ->).
    apply startswith_app.
Qed.

Lemma create_kernel_fresh d w :
  (∀ i j, uuid4 i = uuid4 j → i = j) → sound uuid4 d w →
  agents d !! ("local/" +:+ uuid4 (draws w)) = None
  ∧ procs w !! next_proc w = None.
Proof.
  intros Hinj (Ha & Hb & Hc & Hk). split.
  - destruct (agents d !! _) as [p|] eqn:Hp; [|done].
    destruct (Hk _ (mk_is_Some _ _ Hp)) as (i & Hi & Heq).
    apply string_app_inj, Hinj in Heq. lia.
  - destruct (procs w !! next_proc w) as [x|] eqn:Hx; [|done].
    specialize (Hb _ (mk_is_Some _ _ Hx)). lia.
Qed.

(** On a driver reached by calls, with a UUID generator that does not
    repeat itself, a [create_kernel] whose process starts adds exactly one
    entry to the registry: under a key that was not there, for a process
    that was not there, started with the kernel id and the agent port on
    its command line; the kernel returned carries that id and the socket
    address of that port. *)
Theorem create_kernel_registers_new_entry d w instance agent_port :
  (∀ i j, uuid4 i = uuid4 j → i = j) → reachable uuid4 d w →
  ∃ kernel d' w' proc,
    create_kernel uuid4 d instance agent_port None w = (Ok kernel, d', w')
    ∧ agents d !! id kernel = None
    ∧ procs w !! proc = None
    ∧ agents d' = <[id kernel := proc]> (agents d)
    ∧ size (agents d') = S (size (agents d))
    ∧ procs w' !! proc
      = Some (mkProcess ["/usr/bin/env"; "python3"; "-m"; "sorna.agent";
                         "--kernel-id"; id kernel;
                         "--agent-port"; pretty agent_port] Running)
    ∧ agent_sock kernel = Some (tcp_address (ip instance) agent_port).
Proof.
  intros Hinj Hs%reachable_sound.
  destruct (create_kernel_fresh d w Hinj Hs) as [Hkey Hproc].
  unfold create_kernel. do 4 eexists. split; [reflexivity|]. simpl.
  split; [done|]. split; [done|]. split; [done|].
  split; [by apply map_size_insert_None|].
  split; [apply lookup_insert_eq|done].
Qed.

(** On a driver reached by calls, with a UUID generator that does not
    repeat itself, a kernel created and then destroyed, its process
    exiting once signalled, leaves the registry as it was before the two
    calls, and its process exited. *)
Theorem create_then_destroy_restores_registry d w instance agent_port :
  (∀ i j, uuid4 i = uuid4 j → i = j) → reachable uuid4 d w →
  ∃ kernel d' w' proc c,
    create_kernel uuid4 d instance agent_port None w = (Ok kernel, d', w')
    ∧ agents d' !! id kernel = Some proc
    ∧ run kernel [Step; Step; Exits proc; Step; Step] (destroy_kernel d' w')
      = Some c
    ∧ at_pc c = Done (Ok ())
    ∧ driver c = d
    ∧ status_of proc (outside c) = Some Exited.
Proof.
  intros Hinj Hs%reachable_sound.
  destruct (create_kernel_fresh d w Hinj Hs) as [Hkey Hproc].
  set (kernel := {| id := "local/" +:+ uuid4 (draws w);
                     instance := instance;
                     agent_sock := Some (tcp_address (ip instance) agent_port);
                     priv := None |}).
  set (d' := {| agents := <[id kernel := next_proc w]> (agents d) |}).
  set (w' := (create_kernel uuid4 d instance agent_port None w).2).
  assert (agents d' !! id kernel = Some (next_proc w)) as Ha
    by apply lookup_insert_eq.
  assert (status_of (next_proc w) w' = Some Running) as Hrunning.
  { unfold status_of. simpl. by rewrite lookup_insert_eq. }
  assert (is_Some (status_of (next_proc w) w')) as Hst
    by (rewrite Hrunning; by eexists).
  assert (status_of (next_proc w) w' ≠ Some Exited) as Halive
    by by rewrite Hrunning.
  destruct (teardown_completes kernel (next_proc w) d' w' Ha Hst Halive)
    as (w0 & _ & Hrun & Hex).
  exists kernel, d', w', (next_proc w). eexists.
  split; [reflexivity|]. split; [exact Ha|]. split; [exact Hrun|].
  simpl. split; [done|]. split; [|done].
  rewrite delete_insert_id by done. by destruct d.
Qed.

Lemma status_kept kernel p l c c' :
  is_Some (status_of p (outside c)) → step kernel l c = Some c' →
  is_Some (status_of p (outside c')).
Proof.
  rewrite !status_of_is_Some. intros Hp Hstep. unfold step in Hstep.
  destruct l as [|e|q].
  - destruct (at_pc c) as [|p'|p'| |r].
    + by case_match; simplify_eq/=.
    + destruct (terminate p' (outside c)) as [w'|e] eqn:Ht; simplify_eq/=;
        [|done].
      by apply (procs_terminate p' (outside c) w' p).
    + by repeat case_match; simplify_eq/=.
    + by case_match; simplify_eq/=.
    + done.
  - by destruct (at_pc c); simplify_eq/=.
  - case_match; simplify_eq/=. by apply (procs_set_status _ Exited).
Qed.

(** A [destroy_kernel] that raised, in [terminate] or while it waited,
    has not lost the handle: the entry is still there.  A later call
    removes it if the process has not exited by then and exits once
    signalled.  If the process has exited by then, as it does after the
    signal of the call that was cancelled while it waited, the later call
    raises [ProcessLookupError], and no later call ever removes the
    entry. *)
Theorem failed_teardown_keeps_entry kernel proc d w ls c e :
  agents d !! id kernel = Some proc → is_Some (status_of proc w) →
  run kernel ls (destroy_kernel d w) = Some c →
  at_pc c = Done (Raise e) →
  agents (driver c) !! id kernel = Some proc
  ∧ (status_of proc (outside c) ≠ Some Exited →
     ∃ c',
       run kernel [Step; Step; Exits proc; Step; Step]
         (destroy_kernel (driver c) (outside c)) = Some c'
       ∧ at_pc c' = Done (Ok ())
       ∧ agents (driver c') !! id kernel = None)
  ∧ (status_of proc (outside c) = Some Exited →
     run kernel [Step; Step] (destroy_kernel (driver c) (outside c))
     = Some (mkConfig (Done (Raise ProcessLookupError))
                      (driver c) (outside c) [])
     ∧ ∀ ls' c',
         run kernel ls' (destroy_kernel (driver c) (outside c)) = Some c' →
         at_pc c' ≠ Done (Ok ())
         ∧ agents (driver c') !! id kernel = Some proc).
Proof.
  intros Ha Hst Hrun Hpc.
  pose proof (teardown_inv_run kernel proc d w ls c Ha Hrun) as Hinv.
  unfold teardown_inv in Hinv. rewrite Hpc in Hinv. destruct Hinv as [_ Ha'].
  split; [done|].
  assert (is_Some (status_of proc (outside c))) as Hst'.
  { apply (run_invariant (λ c, is_Some (status_of proc (outside c))) kernel)
      with (ls := ls) (c := destroy_kernel d w); [|done..].
    intros l c1 c2. apply status_kept. }
  split.
  - intros Halive.
    destruct (teardown_completes kernel proc (driver c) (outside c)
                Ha' Hst' Halive) as (w0 & _ & Hrun' & _).
    eexists. split; [exact Hrun'|]. simpl. split; [done|].
    apply lookup_delete_eq.
  - intros Hex. split.
    + unfold destroy_kernel. simpl. rewrite Ha'. simpl.
      by rewrite (terminate_exited _ _ Hex).
    + intros ls' c' Hrun'.
      assert (gone_inv kernel proc (driver c) c') as (Hd & _ & _ & Hpc').
      { apply (run_invariant (gone_inv kernel proc (driver c)) kernel
                 (λ l c1 c2,
                    gone_inv_step kernel proc (driver c) l c1 c2 Ha')
                 ls' (destroy_kernel (driver c) (outside c)) c'); [|done].
        unfold gone_inv. simpl. eauto. }
      rewrite Hd. split; [|done].
      by destruct Hpc' as [->|[->|[e' ->]]].
Qed.

(** Two calls for the same kernel, the second made while the first waits
    for the process, which has not exited: both signal the process and
    wait.  When the process exits, the call that waited first goes on
    first: it removes the entry and returns.  The second, when it goes
    on, raises [KeyError] at its [del] statement and leaves the registry as
    the first call left it. *)
Theorem overlapping_destroy_raises_key_error kernel proc d w :
  agents d !! id kernel = Some proc →
  is_Some (status_of proc w) → status_of proc w ≠ Some Exited →
  ∃ first second exited first' second',
    run kernel [Step; Step] (destroy_kernel d w) = Some first
    ∧ at_pc first = AtWait proc
    ∧ run kernel [Step; Step] (destroy_kernel (driver first) (outside first))
      = Some second
    ∧ at_pc second = AtWait proc
    ∧ run kernel [Exits proc] second = Some exited
    ∧ run kernel [Step; Step] (resume first exited) = Some first'
    ∧ at_pc first' = Done (Ok ())
    ∧ history first' = teardown kernel proc
    ∧ agents (driver first') !! id kernel = None
    ∧ run kernel [Step; Step] (resume exited first') = Some second'
    ∧ at_pc second' = Done (Raise (KeyError (id kernel)))
    ∧ history second' = [Signalled proc; ExitConfirmed proc]
    ∧ driver second' = driver first'.
Proof.
  intros Ha Hst Halive.
  destruct (terminate_alive proc w Hst Halive) as (w1 & Ht1 & Hst1).
  destruct (terminate_returns proc w w1 Ht1) as (_ & Hstop1 & _).
  assert (status_of proc w1 ≠ Some Exited) as Halive1.
  { unfold terminate in Ht1.
    destruct (status_of proc w) as [[]|] eqn:Hs; simplify_eq/=.
    - by rewrite status_of_set_status, decide_True, Hs.
    - by rewrite Hs. }
  destruct (terminate_alive proc w1 Hst1 Halive1) as (w2 & Ht2 & [s2 Hs2]).
  assert (status_of proc (set_status proc Exited w2) = Some Exited) as Hex.
  { by rewrite status_of_set_status, decide_True, Hs2. }
  do 5 eexists. split.
  { unfold destroy_kernel. simpl. rewrite Ha. simpl. rewrite Ht1.
    reflexivity. }
  simpl. split; [done|]. split.
  { unfold destroy_kernel. simpl. rewrite Ha. simpl. rewrite Ht2.
    reflexivity. }
  simpl. split; [done|]. split.
  { unfold step. simpl. rewrite Hs2. reflexivity. }
  split.
  { unfold resume. simpl. rewrite Hex. simpl. rewrite Ha. reflexivity. }
  simpl. split; [done|]. split; [done|].
  split; [apply lookup_delete_eq|]. split.
  { unfold resume. simpl. rewrite Hex. simpl. rewrite lookup_delete_eq.
    reflexivity. }
  done.
Qed.

Lemma status_of_exits p q w :
  is_Some (status_of q w) →
  status_of p (set_status q Exited w) = status_of p w
  ∨ (status_of p (set_status q Exited w) = Some Exited
     ∧ is_Some (status_of p w)).
Proof.
  intros [s Hs]. rewrite status_of_set_status. case_decide; [|by left].
  subst q. right. rewrite Hs. by eauto.
Qed.

Lemma unregistered_step kernel d w l c c' :
  agents d !! id kernel = None →
  not_found_inv kernel d c ∧ only_exits w (outside c) →
  step kernel l c = Some c' →
  not_found_inv kernel d c' ∧ only_exits w (outside c').
Proof.
  intros Hd [Hinv Hw] Hstep.
  split; [by eapply not_found_inv_step|].
  destruct Hinv as (_ & _ & Hpc). unfold step in Hstep.
  destruct Hpc as [Hpc|Hpc]; rewrite Hpc in Hstep;
    destruct l as [|e|q]; simplify_eq/=.
  - by repeat case_match; simplify_eq/=.
  - destruct (status_of q (outside c)) as [s|] eqn:Hq; simplify_eq/=.
    intros p.
    destruct (status_of_exits p q (outside c) (mk_is_Some _ _ Hq))
      as [Heq|[Heq Hp]]; destruct (Hw p) as [Hw'|[Hw' Hw'']];
      rewrite ?Heq; eauto.
    right. split; [done|]. by rewrite <- Hw'.
  - destruct (status_of q (outside c)) as [s|] eqn:Hq; simplify_eq/=.
    intros p.
    destruct (status_of_exits p q (outside c) (mk_is_Some _ _ Hq))
      as [Heq|[Heq Hp]]; destruct (Hw p) as [Hw'|[Hw' Hw'']];
      rewrite ?Heq; eauto.
    right. split; [done|]. by rewrite <- Hw'.
Qed.

(** [destroy_kernel] for a kernel that the registry does not hold (one
    of another driver, or one never created) raises [KeyError] with the
    kernel id at its first statement; whatever else happens meanwhile, the
    call changes nothing in the registry, signals no process and never
    returns normally. *)
Theorem destroy_unregistered_kernel kernel d w :
  agents d !! id kernel = None →
  step kernel Step (destroy_kernel d w)
  = Some (mkConfig (Done (Raise (KeyError (id kernel)))) d w [])
  ∧ ∀ ls c,
      run kernel ls (destroy_kernel d w) = Some c →
      driver c = d ∧ history c = [] ∧ at_pc c ≠ Done (Ok ())
      ∧ only_exits w (outside c).
Proof.
  intros Hd. split.
  - unfold step, destroy_kernel. simpl. by rewrite Hd.
  - intros ls c Hrun.
    assert (not_found_inv kernel d c ∧ only_exits w (outside c))
      as [(Hdrv & Hh & Hpc) Hw].
    { apply (run_invariant
               (λ c, not_found_inv kernel d c ∧ only_exits w (outside c))
               kernel) with (ls := ls) (c := destroy_kernel d w); [| |done].
      - intros l c1 c2 Hc1 Hstep. by eapply unregistered_step.
      - split; [unfold not_found_inv; simpl; by eauto|].
        intros p. by left. }
    repeat split; try done.
    destruct Hpc as [-> | ->]; done.
Qed.

Lemma status_of_terminate_ne proc q w w' :
  terminate proc w = Ok w' → q ≠ proc → status_of q w' = status_of q w.
Proof.
  intros Ht Hne. unfold terminate in Ht.
  destruct (status_of proc w) as [[]|]; simplify_eq/=; try done.
  by rewrite status_of_set_status, decide_False.
Qed.

Lemma own_process_step kernel proc w l c c' :
  teardown_inv kernel proc c
  ∧ (∀ q, q ≠ proc →
          status_of q (outside c) = status_of q w
          ∨ (status_of q (outside c) = Some Exited ∧ is_Some (status_of q w))) →
  step kernel l c = Some c' →
  teardown_inv kernel proc c'
  ∧ (∀ q, q ≠ proc →
          status_of q (outside c') = status_of q w
          ∨ (status_of q (outside c') = Some Exited
             ∧ is_Some (status_of q w))).
Proof.
  intros [Hinv Hw] Hstep. split; [by eapply teardown_inv_step|].
  unfold teardown_inv in Hinv. unfold step in Hstep.
  destruct l as [|e|q'].
  - destruct (at_pc c) as [|p|p| |r] eqn:Hpc.
    + by repeat case_match; simplify_eq/=.
    + destruct Hinv as (-> & _).
      destruct (terminate proc (outside c)) as [w'|e] eqn:Ht; simplify_eq/=;
        [|done].
      intros q Hq. rewrite (status_of_terminate_ne _ _ _ _ Ht) by done.
      by apply Hw.
    + by repeat case_match; simplify_eq/=.
    + by repeat case_match; simplify_eq/=.
    + done.
  - by repeat case_match; simplify_eq/=.
  - destruct (status_of q' (outside c)) as [s|] eqn:Hq'; simplify_eq/=.
    intros q Hq.
    destruct (status_of_exits q q' (outside c) (mk_is_Some _ _ Hq'))
      as [Heq|[Heq Hp]]; destruct (Hw q Hq) as [Hw'|[Hw' Hw'']];
      rewrite ?Heq; eauto.
    right. split; [done|]. by rewrite <- Hw'.
Qed.

(** [destroy_kernel] for a kernel of the registry touches nothing but
    its own: in every state of every run the entries of the other kernels
    are as they were at the call, and no other process has been signalled
    (another process changes its status only by exiting). *)
Theorem destroy_kernel_touches_only_its_own kernel proc d w ls c :
  agents d !! id kernel = Some proc →
  run kernel ls (destroy_kernel d w) = Some c →
  (∀ k, k ≠ id kernel → agents (driver c) !! k = agents d !! k)
  ∧ (∀ q, q ≠ proc →
          status_of q (outside c) = status_of q w
          ∨ (status_of q (outside c) = Some Exited ∧ is_Some (status_of q w))).
Proof.
  intros Ha Hrun. split.
  - intros k Hk. by eapply other_entries_kept.
  - apply (run_invariant
             (λ c, teardown_inv kernel proc c
                   ∧ (∀ q, q ≠ proc →
                           status_of q (outside c) = status_of q w
                           ∨ (status_of q (outside c) = Some Exited
                              ∧ is_Some (status_of q w))))
             kernel (λ l c1 c2, own_process_step kernel proc w l c1 c2)
             ls (destroy_kernel d w) c); [|done].
    split; [by unfold teardown_inv|]. intros q _. by left.
Qed.

End LocalRuns.

Lemma monitor_reports_each_lease_witness :
  Monitor.dispatched
    (Monitor.trace
       (Monitor.monitor_redis_events 1 (λ _ _ _, None) Monitor.all_return
          (map (Monitor.Got ("__keyevent@1__" +:+ ":expired"))
               ["shadow:a"; "other:b"; "shadow:a"; "shadow:c:d"]
           ++ [Monitor.GotNone]) Events.init).1)
  = [MonitorRun.lease_event "a"; MonitorRun.lease_event "a";
     MonitorRun.lease_event "c:d"].
Proof.
  assert (MonitorRun.leases_accepted (λ _ _ _, None) Events.init) as Hacc.
  { intros inst_id. unfold Events.accepted.
    assert (Events.handlers_of Events.init "instance_terminated" = [])
      as -> by reflexivity.
    apply Forall_nil_2. }
  exact (proj1 (monitor_reports_each_lease (λ _ _ _, None) 1
                  Monitor.all_return "__keyevent@1__"
                  ["shadow:a"; "other:b"; "shadow:a"; "shadow:c:d"]
                  Events.init eq_refl Hacc)).
Defined.

Lemma leases_reach_registered_handlers_witness :
  Events.loop_queue
    (Monitor.bus
       (Monitor.monitor_redis_events 1 (λ _ _ _, None) Monitor.all_return
          (map (Monitor.Got ("__keyevent@1__" +:+ ":expired"))
               ["shadow:a"; "other:b"] ++ [Monitor.GotNone])
          (Bus.run_ops (λ _ _ _, None)
             [Bus.Register "instance_terminated"
                (Events.Callback "on_terminated" Events.CoroutineFunction)]
             Events.init)).1)
  = [Events.EnsureFuture
       (Events.Callback "on_terminated" Events.CoroutineFunction)
       [VStr "agent-lost"; VStr "a"] []].
Proof.
  assert (MonitorRun.leases_accepted (λ _ _ _, None)
            (Bus.run_ops (λ _ _ _, None)
               [Bus.Register "instance_terminated"
                  (Events.Callback "on_terminated" Events.CoroutineFunction)]
               Events.init)) as Hacc.
  { intros inst_id. unfold Events.accepted.
    assert (Events.handlers_of
              (Bus.run_ops (λ _ _ _, None)
                 [Bus.Register "instance_terminated"
                    (Events.Callback "on_terminated"
                       Events.CoroutineFunction)]
                 Events.init) "instance_terminated"
            = [Events.Callback "on_terminated" Events.CoroutineFunction])
      as -> by reflexivity.
    apply Forall_cons_2; [reflexivity | apply Forall_nil_2]. }
  exact (leases_reach_registered_handlers (λ _ _ _, None) 1
           Monitor.all_return "__keyevent@1__" ["shadow:a"; "other:b"] _
           eq_refl Hacc).
Defined.

Lemma other_key_events_ignored_witness :
  Monitor.on_message (λ _ _ _, None) "__keyevent@1__:del" "shadow:inst-42"
    {| Monitor.trace := []; Monitor.bus := Events.init |}
  = ({| Monitor.trace := []; Monitor.bus := Events.init |}, Ok ()).
Proof.
  apply (other_key_events_ignored (λ _ _ _, None) "__keyevent@1__" "del"
           "shadow:inst-42");
    [reflexivity | reflexivity | discriminate].
Defined.

Lemma exit_adds_only_cleanup_witness :
  Monitor.trace
    (Monitor.monitor_redis_events 1 (λ _ _ _, None)
       (Monitor.mkAnswers None (Some (OSError "closed")) None)
       [Monitor.Got "__keyevent@1__:expired" "shadow:a";
        Monitor.Got "bad" "shadow:b";
        Monitor.Got "__keyevent@1__:expired" "shadow:c"] Events.init).1
  = Monitor.trace
      (Monitor.monitor_redis_events 1 (λ _ _ _, None)
         (Monitor.mkAnswers None (Some (OSError "closed")) None)
         [Monitor.Got "__keyevent@1__:expired" "shadow:a"] Events.init).1
    ++ [Monitor.Unsubscribe "__keyevent@1__*"; Monitor.Close].
Proof.
  assert ((Monitor.monitor_redis_events 1 (λ _ _ _, None)
             (Monitor.mkAnswers None (Some (OSError "closed")) None)
             [Monitor.Got "__keyevent@1__:expired" "shadow:a"]
             Events.init).2 = Monitor.Pending) as Hp by reflexivity.
  exact (proj1 (exit_adds_only_cleanup (λ _ _ _, None) 1
                  (Monitor.mkAnswers None (Some (OSError "closed")) None)
                  [Monitor.Got "__keyevent@1__:expired" "shadow:a"]
                  (Monitor.Got "bad" "shadow:b")
                  [Monitor.Got "__keyevent@1__:expired" "shadow:c"]
                  Events.init Hp eq_refl)).
Defined.

Lemma malformed_channel_stops_monitor_witness :
  (Monitor.monitor_redis_events 1 (λ _ _ _, None) Monitor.all_return
     [Monitor.Got "expired" "shadow:inst-42";
      Monitor.Got "__keyevent@1__:expired" "shadow:a"]
     Events.init).2
  = Monitor.Exc IndexError.
Proof.
  assert ((Monitor.monitor_redis_events 1 (λ _ _ _, None) Monitor.all_return
             [] Events.init).2 = Monitor.Pending) as Hp by reflexivity.
  exact (malformed_channel_stops_monitor (λ _ _ _, None) 1 Monitor.all_return
           [] "expired" "shadow:inst-42"
           [Monitor.Got "__keyevent@1__:expired" "shadow:a"] Events.init
           Hp eq_refl).
Defined.

Lemma raising_handler_stops_monitor_witness :
  (Monitor.monitor_redis_events 1 (λ _ _ _, Some TypeError) Monitor.all_return
     [Monitor.Got "__keyevent@1__:expired" "shadow:a";
      Monitor.Got "__keyevent@1__:expired" "shadow:b"]
     (Bus.run_ops (λ _ _ _, Some TypeError)
        [Bus.Register "instance_terminated"
           (Events.Callback "on_terminated" Events.CoroutineFunction)]
        Events.init)).2
  = Monitor.Exc TypeError.
Proof.
  assert ((Monitor.monitor_redis_events 1 (λ _ _ _, Some TypeError)
             Monitor.all_return []
             (Bus.run_ops (λ _ _ _, Some TypeError)
                [Bus.Register "instance_terminated"
                   (Events.Callback "on_terminated" Events.CoroutineFunction)]
                Events.init)).2 = Monitor.Pending) as Hp by reflexivity.
  assert ((Events.local_dispatch (λ _ _ _, Some TypeError)
             (Monitor.bus
                (Monitor.monitor_redis_events 1 (λ _ _ _, Some TypeError)
                   Monitor.all_return []
                   (Bus.run_ops (λ _ _ _, Some TypeError)
                      [Bus.Register "instance_terminated"
                         (Events.Callback "on_terminated"
                            Events.CoroutineFunction)]
                      Events.init)).1)
             "instance_terminated" [VStr "agent-lost"; VStr "a"] []).2
          = Raise TypeError) as He by reflexivity.
  exact (proj2 (raising_handler_stops_monitor (λ _ _ _, Some TypeError) 1
                  Monitor.all_return "__keyevent@1__" [] "a"
                  [Monitor.Got "__keyevent@1__:expired" "shadow:b"]
                  _ TypeError eq_refl Hp He)).
Defined.

Lemma setup_failure_skips_cleanup_witness :
  (MonitorRun.monitor_from_setup 1 (λ _ _ _, None) None
     (Some (OSError "CONFIG is disabled")) None Monitor.all_return
     [Monitor.Got "__keyevent@1__:expired" "shadow:a"] Events.init).2
  = Monitor.Exc (OSError "CONFIG is disabled").
Proof.
  exact (proj1 (setup_failure_skips_cleanup (λ _ _ _, None) 1 None
                  (Some (OSError "CONFIG is disabled")) None _
                  Monitor.all_return
                  [Monitor.Got "__keyevent@1__:expired" "shadow:a"]
                  Events.init eq_refl)).
Defined.

Lemma monitor_stays_subscribed_witness :
  (Monitor.monitor_redis_events 1 (λ _ _ _, None) Monitor.all_return
     [Monitor.Got "__keyevent@1__:expired" "shadow:a";
      Monitor.Got "__keyevent@1__:expired" "other:b"] Events.init).2
  = Monitor.Pending.
Proof.
  assert (Forall (λ i, Monitor.leaves_loop i = false)
            [Monitor.Got "__keyevent@1__:expired" "shadow:a";
             Monitor.Got "__keyevent@1__:expired" "other:b"]) as Hin.
  { repeat (apply Forall_cons_2; [reflexivity|]). apply Forall_nil_2. }
  assert (MonitorRun.leases_accepted (λ _ _ _, None) Events.init) as Hacc.
  { intros inst_id. unfold Events.accepted.
    assert (Events.handlers_of Events.init "instance_terminated" = [])
      as -> by reflexivity.
    apply Forall_nil_2. }
  destruct (monitor_stays_subscribed (λ _ _ _, None) 1 Monitor.all_return _
              Events.init Hin Hacc) as (t & _ & _ & Hp).
  exact Hp.
Defined.

Lemma registry_holds_spawned_processes_witness :
  Monitor.startswith "local/" "local/0" = true.
Proof.
  refine (proj2 (proj2
            (registry_holds_spawned_processes pretty
               (LocalDriver.create_kernel pretty LocalDriver.new
                  (mkInstance "i-0" "127.0.0.1" 0) 5003 None
                  (LocalDriver.mkWorld 0 ∅ 0)).1.2
               (LocalDriver.create_kernel pretty LocalDriver.new
                  (mkInstance "i-0" "127.0.0.1" 0) 5003 None
                  (LocalDriver.mkWorld 0 ∅ 0)).2 _)) "local/0" _).
  - apply LocalRun.reach_create_kernel, LocalRun.reach_new. reflexivity.
  - eexists. reflexivity.
Defined.

Lemma create_kernel_registers_new_entry_witness :
  ∃ kernel d' w' proc,
    LocalDriver.create_kernel pretty LocalDriver.new
      (mkInstance "i-0" "127.0.0.1" 0) 5003 None (LocalDriver.mkWorld 0 ∅ 0)
    = (Ok kernel, d', w')
    ∧ LocalDriver.agents d' = {[ id kernel := proc ]}
    ∧ agent_sock kernel = Some "tcp://127.0.0.1:5003".
Proof.
  destruct (create_kernel_registers_new_entry pretty LocalDriver.new
              (LocalDriver.mkWorld 0 ∅ 0) (mkInstance "i-0" "127.0.0.1" 0)
              5003)
    as (kernel & d' & w' & proc & Hck & _ & _ & Hd' & _ & _ & Hsock).
  - intros i j Hij. exact (pretty_nat_inj i j Hij).
  - apply LocalRun.reach_new. reflexivity.
  - exists kernel, d', w', proc. split; [exact Hck|].
    split; [exact Hd'|exact Hsock].
Defined.

Lemma create_then_destroy_restores_registry_witness :
  ∃ kernel d' w' proc c,
    LocalDriver.create_kernel pretty LocalDriver.new
      (mkInstance "i-0" "127.0.0.1" 0) 5003 None (LocalDriver.mkWorld 0 ∅ 0)
    = (Ok kernel, d', w')
    ∧ LocalDriver.run kernel
        [LocalDriver.Step; LocalDriver.Step; LocalDriver.Exits proc;
         LocalDriver.Step; LocalDriver.Step]
        (LocalDriver.destroy_kernel d' w') = Some c
    ∧ LocalDriver.driver c = LocalDriver.new.
Proof.
  destruct (create_then_destroy_restores_registry pretty LocalDriver.new
              (LocalDriver.mkWorld 0 ∅ 0) (mkInstance "i-0" "127.0.0.1" 0)
              5003)
    as (kernel & d' & w' & proc & c & Hck & _ & Hrun & _ & Hd & _).
  - intros i j Hij. exact (pretty_nat_inj i j Hij).
  - apply LocalRun.reach_new. reflexivity.
  - exists kernel, d', w', proc, c. split; [exact Hck|].
    split; [exact Hrun|exact Hd].
Defined.

Lemma failed_teardown_keeps_entry_witness :
  LocalDriver.run
    (mkKernel "local/u0" (mkInstance "i-0" "127.0.0.1" 0) None None)
    [LocalDriver.Step; LocalDriver.Step]
    (LocalDriver.destroy_kernel
       (LocalDriver.mkLocalDriver {[ "local/u0" := 7 ]})
       (LocalDriver.set_status 7 LocalDriver.Exited
          (LocalDriver.set_status 7 LocalDriver.Terminating
             (LocalDriver.mkWorld 1
                {[ 7 := LocalDriver.mkProcess [] LocalDriver.Running ]} 8))))
  = Some (LocalDriver.mkConfig
            (LocalDriver.Done (Raise ProcessLookupError))
            (LocalDriver.mkLocalDriver {[ "local/u0" := 7 ]})
            (LocalDriver.set_status 7 LocalDriver.Exited
               (LocalDriver.set_status 7 LocalDriver.Terminating
                  (LocalDriver.mkWorld 1
                     {[ 7 := LocalDriver.mkProcess [] LocalDriver.Running ]}
                     8)))
            []).
Proof.
  assert (LocalDriver.agents (LocalDriver.mkLocalDriver {[ "local/u0" := 7 ]})
            !! id (mkKernel "local/u0" (mkInstance "i-0" "127.0.0.1" 0)
                     None None) = Some 7) as Ha by reflexivity.
  assert (is_Some
            (LocalDriver.status_of 7
               (LocalDriver.mkWorld 1
                  {[ 7 := LocalDriver.mkProcess [] LocalDriver.Running ]} 8)))
    as Hs by (eexists; reflexivity).
  assert (LocalDriver.run
            (mkKernel "local/u0" (mkInstance "i-0" "127.0.0.1" 0) None None)
            [LocalDriver.Step; LocalDriver.Step;
             LocalDriver.Throws CancelledError; LocalDriver.Exits 7]
            (LocalDriver.destroy_kernel
               (LocalDriver.mkLocalDriver {[ "local/u0" := 7 ]})
               (LocalDriver.mkWorld 1
                  {[ 7 := LocalDriver.mkProcess [] LocalDriver.Running ]} 8))
          = Some (LocalDriver.mkConfig
                    (LocalDriver.Done (Raise CancelledError))
                    (LocalDriver.mkLocalDriver {[ "local/u0" := 7 ]})
                    (LocalDriver.set_status 7 LocalDriver.Exited
                       (LocalDriver.set_status 7 LocalDriver.Terminating
                          (LocalDriver.mkWorld 1
                             {[ 7 := LocalDriver.mkProcess []
                                       LocalDriver.Running ]} 8)))
                    [LocalDriver.Signalled 7])) as Hrun by reflexivity.
  destruct (failed_teardown_keeps_entry _ 7 _ _ _ _ CancelledError
              Ha Hs Hrun eq_refl) as (_ & _ & Hgone).
  exact (proj1 (Hgone eq_refl)).
Defined.

Lemma overlapping_destroy_raises_key_error_witness :
  ∃ first second exited first' second',
    LocalDriver.run
      (mkKernel "local/u0" (mkInstance "i-0" "127.0.0.1" 0) None None)
      [LocalDriver.Step; LocalDriver.Step]
      (LocalDriver.destroy_kernel
         (LocalDriver.mkLocalDriver {[ "local/u0" := 7 ]})
         (LocalDriver.mkWorld 1
            {[ 7 := LocalDriver.mkProcess [] LocalDriver.Running ]} 8))
    = Some first
    ∧ LocalDriver.run
        (mkKernel "local/u0" (mkInstance "i-0" "127.0.0.1" 0) None None)
        [LocalDriver.Step; LocalDriver.Step]
        (LocalDriver.destroy_kernel (LocalDriver.driver first)
           (LocalDriver.outside first)) = Some second
    ∧ LocalDriver.run
        (mkKernel "local/u0" (mkInstance "i-0" "127.0.0.1" 0) None None)
        [LocalDriver.Exits 7] second = Some exited
    ∧ LocalDriver.run
        (mkKernel "local/u0" (mkInstance "i-0" "127.0.0.1" 0) None None)
        [LocalDriver.Step; LocalDriver.Step] (LocalRun.resume first exited)
      = Some first'
    ∧ LocalDriver.at_pc first' = LocalDriver.Done (Ok ())
    ∧ LocalDriver.run
        (mkKernel "local/u0" (mkInstance "i-0" "127.0.0.1" 0) None None)
        [LocalDriver.Step; LocalDriver.Step] (LocalRun.resume exited first')
      = Some second'
    ∧ LocalDriver.at_pc second'
      = LocalDriver.Done (Raise (KeyError "local/u0")).
Proof.
  destruct (overlapping_destroy_raises_key_error
              (mkKernel "local/u0" (mkInstance "i-0" "127.0.0.1" 0) None None)
              7 (LocalDriver.mkLocalDriver {[ "local/u0" := 7 ]})
              (LocalDriver.mkWorld 1
                 {[ 7 := LocalDriver.mkProcess [] LocalDriver.Running ]} 8))
    as (first & second & exited & first' & second'
        & H1 & _ & H2 & _ & H3 & H4 & H5 & _ & _ & H6 & H7 & _);
    [reflexivity | eexists; reflexivity | discriminate |].
  exists first, second, exited, first', second'. repeat split; assumption.
Defined.

Lemma destroy_unregistered_kernel_witness :
  LocalDriver.step
    (mkKernel "docker-10.0.0.1/c0ffee"
       (mkInstance "i-0" "10.0.0.1" 2375) None None) LocalDriver.Step
    (LocalDriver.destroy_kernel
       (LocalDriver.mkLocalDriver {[ "local/u0" := 7 ]})
       (LocalDriver.mkWorld 1
          {[ 7 := LocalDriver.mkProcess [] LocalDriver.Running ]} 8))
  = Some (LocalDriver.mkConfig
            (LocalDriver.Done (Raise (KeyError "docker-10.0.0.1/c0ffee")))
            (LocalDriver.mkLocalDriver {[ "local/u0" := 7 ]})
            (LocalDriver.mkWorld 1
               {[ 7 := LocalDriver.mkProcess [] LocalDriver.Running ]} 8) []).
Proof.
  refine (proj1 (destroy_unregistered_kernel
                   (mkKernel "docker-10.0.0.1/c0ffee"
                      (mkInstance "i-0" "10.0.0.1" 2375) None None)
                   (LocalDriver.mkLocalDriver {[ "local/u0" := 7 ]})
                   (LocalDriver.mkWorld 1
                      {[ 7 := LocalDriver.mkProcess [] LocalDriver.Running ]}
                      8) _)).
  reflexivity.
Defined.

Lemma destroy_kernel_touches_only_its_own_witness :
  ∃ c,
    LocalDriver.run
      (mkKernel "local/u0" (mkInstance "i-0" "127.0.0.1" 0) None None)
      [LocalDriver.Step; LocalDriver.Step; LocalDriver.Exits 7;
       LocalDriver.Step; LocalDriver.Step]
      (LocalDriver.destroy_kernel
         (LocalDriver.mkLocalDriver {[ "local/u0" := 7; "local/u1" := 8 ]})
         (LocalDriver.mkWorld 2
            {[ 7 := LocalDriver.mkProcess [] LocalDriver.Running;
               8 := LocalDriver.mkProcess [] LocalDriver.Running ]} 9))
    = Some c
    ∧ LocalDriver.agents (LocalDriver.driver c) !! "local/u1" = Some 8.
Proof.
  edestruct (destroy_kernel_touches_only_its_own
               (mkKernel "local/u0" (mkInstance "i-0" "127.0.0.1" 0) None None)
               7
               (LocalDriver.mkLocalDriver
                  {[ "local/u0" := 7; "local/u1" := 8 ]})
               (LocalDriver.mkWorld 2
                  {[ 7 := LocalDriver.mkProcess [] LocalDriver.Running;
                     8 := LocalDriver.mkProcess [] LocalDriver.Running ]} 9)
               [LocalDriver.Step; LocalDriver.Step; LocalDriver.Exits 7;
                LocalDriver.Step; LocalDriver.Step]) as [Hk _];
    [reflexivity | reflexivity |].
  eexists. split; [reflexivity|].
  exact (eq_trans (Hk "local/u1" ltac:(discriminate)) eq_refl).
Defined.

(** ** Agent sockets, driver names and the Docker variant *)

Lemma tcp_address_inj host p1 p2 :
  tcp_address host p1 = tcp_address host p2 → p1 = p2.
Proof.
  unfold tcp_address. intros H.
  apply string_app_inj, string_app_inj in H.
  change (":" +:+ pretty p1 = ":" +:+ pretty p2) in H.
  apply string_app_inj in H. by apply (inj pretty).
Qed.

(** On one host, different ports give different agent socket addresses;
    so do the ports of [AgentPortRange], which are the eight ports from
    5002 to 5009. *)
Theorem agent_socks_distinct host :
  (∀ p1 p2, tcp_address host p1 = tcp_address host p2 → p1 = p2)
  ∧ NoDup (tcp_address host <$> AgentPortRange)
  ∧ (∀ p, p ∈ AgentPortRange ↔ (5002 ≤ p < 5010)%Z).
Proof.
  split; [apply tcp_address_inj|]. split.
  - apply NoDup_fmap_2; [|apply NoDup_seqZ].
    intros p1 p2. apply tcp_address_inj.
  - intros p. unfold AgentPortRange, range. rewrite elem_of_seqZ. lia.
Qed.

(** The names for which [create_driver] constructs a driver are the names
    of the members of [DriverTypes], no more and no less. *)
Theorem factory_accepts_driver_types name :
  is_ok (create_driver name) = true ↔ name ∈ DriverTypes.*1.
Proof.
  unfold create_driver, _driver_type_to_class, DriverTypes. simpl.
  rewrite lookup_insert, !elem_of_cons, elem_of_nil.
  case_decide as H1; [subst; naive_solver|].
  rewrite lookup_singleton. case_decide as H2; [subst; naive_solver|].
  simpl. naive_solver.
Qed.

(** The driver that [create_driver] constructs for [aws_docker] completes
    none of the four operations, whatever the arguments: [launch_instance]
    raises [NameError] for the misspelt name [sepc] before it gets to its
    [NotImplementedError], [create_kernel] raises [NameError] for [docker],
    and the two [destroy] operations raise [NotImplementedError]. *)
Theorem aws_docker_driver_never_returns inst_id instance agent_port
    container_id kernel :
  ∃ aws,
    create_driver "aws_docker" = Ok (AWSDocker aws)
    ∧ AWSDockerDriver.launch_instance aws = Raise (NameError "sepc")
    ∧ AWSDockerDriver.destroy_instance aws inst_id = Raise NotImplementedError
    ∧ AWSDockerDriver.create_kernel aws instance agent_port container_id
      = Raise (NameError "docker")
    ∧ AWSDockerDriver.destroy_kernel aws kernel = Raise NotImplementedError.
Proof. by eexists. Qed.

(** ** Start and stop of the event module *)

